(** * flows-app-mssql: the row stream adapter, the pool manager and the
      operation blocks, embedded from the TypeScript sources.

    - [StreamRows]  : [streamRows] of src/blocks/bulkInsert.ts (its second
      part, the stream query block), the async generator that turns the
      driver's row/error/done callbacks into a pull sequence, as a step
      function over the generator's local variables.
    - [Pool]        : [getPool] of src/unnamed/part_000 (imported by the
      blocks as utils/pool.ts), the module-level pool variables and the
      asynchronous initialisation, as interleaved steps.
    - [Blocks]      : the [onEvent] handlers of the five blocks, in a small
      state-and-error monad that logs what is sent to the database and what
      is emitted. *)

From Stdlib Require Import Ascii.
From stdpp Require Import base option list strings pretty gmap fin_maps.

Set Default Proof Using "Type".

(** ** JavaScript values as the driver hands them over.

    Numbers that occur in the properties below are counts, so [VNum] carries
    an integer. [VArr] is what the driver returns for several columns of the
    same name. *)
#[warnings="-register-all"]
Inductive jsval :=
| VUndefined
| VNull
| VBool (b : bool)
| VNum (n : Z)
| VStr (s : string)
| VBigInt (n : Z)
| VArr (l : list jsval).

(** [typeof value === "bigint"] *)
Definition is_bigint (v : jsval) : bool :=
  match v with VBigInt _ => true | _ => false end.

(** A result row: a JavaScript object used as a map from column name to value. *)
Abbreviation row := (gmap string jsval).

(** ** The row stream adapter *)
Module StreamRows.
Section Generator.
(** [R] is the type of driver rows, [E] the type of driver errors. *)
Context {R E : Type}.

(** The promise built by [new Promise((resolve, reject) => ...)]: it is
    settled at most once, later calls of [resolve] and [reject] do nothing.
    A resolved value [None] is JavaScript's [undefined]. *)
Inductive promise :=
| Pending
| Resolved (v : option R)
| Rejected (e : E).

Definition resolve (v : option R) (p : promise) : promise :=
  match p with Pending => Resolved v | _ => p end.

Definition reject (e : E) (p : promise) : promise :=
  match p with Pending => Rejected e | _ => p end.

(** Where the generator body is suspended. *)
Inductive position :=
| NotStarted      (* created, body not entered: no listener, no query yet *)
| AtYieldQueue    (* suspended at [yield rowQueue.shift()] *)
| AtAwait         (* suspended at [await new Promise(...)] *)
| AtYieldAwait    (* suspended at the [yield] of [yield await ...] *)
| Completed.      (* returned or threw *)

#[export] Instance position_eq_dec : EqDecision position.
Proof. solve_decision. Defined.

(** The local variables of [streamRows]. [resolver] and [rejecter] are
    [true] when the variable holds a function, [false] when it is [null];
    both always refer to the promise created last, [awaited]. *)
Record gen := Gen {
  resolver : bool;
  rejecter : bool;
  awaited : promise;
  rowQueue : list R;
  done : bool;
  error : option E;
  pos : position
}.

Definition init : gen :=
  {| resolver := false; rejecter := false; awaited := Pending;
     rowQueue := []; done := false; error := None; pos := NotStarted |}.

(** What one pull ([next()]) of the consumer receives. *)
Inductive pulled :=
| Yielded (v : option R)
| Returned
| Thrown (e : E).

(** [request.on("row", ...)] *)
Definition on_row (r : R) (g : gen) : gen :=
  if resolver g
  then {| resolver := false; rejecter := rejecter g;
          awaited := resolve (Some r) (awaited g);
          rowQueue := rowQueue g; done := done g; error := error g;
          pos := pos g |}
  else {| resolver := resolver g; rejecter := rejecter g;
          awaited := awaited g;
          rowQueue := rowQueue g ++ [r]; done := done g; error := error g;
          pos := pos g |}.

(** [request.on("error", ...)] *)
Definition on_error (e : E) (g : gen) : gen :=
  if rejecter g
  then {| resolver := resolver g; rejecter := false;
          awaited := reject e (awaited g);
          rowQueue := rowQueue g; done := done g; error := Some e;
          pos := pos g |}
  else {| resolver := resolver g; rejecter := rejecter g;
          awaited := awaited g;
          rowQueue := rowQueue g; done := done g; error := Some e;
          pos := pos g |}.

(** [request.on("done", ...)] *)
Definition on_done (g : gen) : gen :=
  if resolver g
  then {| resolver := false; rejecter := rejecter g;
          awaited := resolve None (awaited g);
          rowQueue := rowQueue g; done := true; error := error g;
          pos := pos g |}
  else {| resolver := resolver g; rejecter := rejecter g;
          awaited := awaited g;
          rowQueue := rowQueue g; done := true; error := error g;
          pos := pos g |}.

(** The executor of [new Promise(...)]: it stores [resolver] and
    [rejecter], then checks the three variables again. *)
Definition executor (g : gen) : gen :=
  match error g with
  | Some e =>
      {| resolver := true; rejecter := true; awaited := Rejected e;
         rowQueue := rowQueue g; done := done g; error := error g;
         pos := AtAwait |}
  | None =>
      match rowQueue g with
      | r :: q =>
          {| resolver := false; rejecter := true;
             awaited := Resolved (Some r);
             rowQueue := q; done := done g; error := error g;
             pos := AtAwait |}
      | [] =>
          if done g
          then {| resolver := false; rejecter := true;
                  awaited := Resolved None;
                  rowQueue := []; done := done g; error := error g;
                  pos := AtAwait |}
          else {| resolver := true; rejecter := true; awaited := Pending;
                  rowQueue := []; done := done g; error := error g;
                  pos := AtAwait |}
      end
  end.

Definition at_pos (p : position) (g : gen) : gen :=
  {| resolver := resolver g; rejecter := rejecter g; awaited := awaited g;
     rowQueue := rowQueue g; done := done g; error := error g; pos := p |}.

(** One turn of [while (true) { ... }] from its top, up to the next
    suspension. A turn that suspends at the [await] answers nothing yet. *)
Definition loop (g : gen) : gen * option pulled :=
  match error g with
  | Some e => (at_pos Completed g, Some (Thrown e))
  | None =>
      match rowQueue g with
      | r :: q =>
          ({| resolver := resolver g; rejecter := rejecter g;
              awaited := awaited g; rowQueue := q; done := done g;
              error := error g; pos := AtYieldQueue |},
           Some (Yielded (Some r)))
      | [] =>
          if done g then (at_pos Completed g, Some Returned)
          else (executor g, None)
      end
  end.

(** What can happen to the generator: the consumer pulls, the awaited
    promise's continuation runs, or the driver calls a listener. *)
Inductive action :=
| Pull
| Resume
| OnRow (r : R)
| OnError (e : E)
| OnDone.

(** [step g a] is [None] when [a] cannot happen in [g]: the consumer
    ([for await]) pulls only after its previous pull was answered and
    stops at completion; the continuation runs only once the awaited
    promise is settled; the driver calls listeners only after
    [request.query(query)], which the first pull executes. *)
Definition step (g : gen) (a : action) : option (gen * option pulled) :=
  match a with
  | Pull =>
      match pos g with
      | NotStarted | AtYieldQueue => Some (loop g)
      | AtYieldAwait =>
          if done g && bool_decide (length (rowQueue g) = 0)
          then Some (at_pos Completed g, Some Returned)
          else Some (loop g)
      | AtAwait | Completed => None
      end
  | Resume =>
      match pos g, awaited g with
      | AtAwait, Resolved v => Some (at_pos AtYieldAwait g, Some (Yielded v))
      | AtAwait, Rejected e => Some (at_pos Completed g, Some (Thrown e))
      | _, _ => None
      end
  | OnRow r =>
      match pos g with NotStarted => None | _ => Some (on_row r g, None) end
  | OnError e =>
      match pos g with NotStarted => None | _ => Some (on_error e g, None) end
  | OnDone =>
      match pos g with NotStarted => None | _ => Some (on_done g, None) end
  end.

Definition emit_opt (o : option pulled) : list pulled :=
  match o with Some p => [p] | None => [] end.

(** Runs a schedule, collecting what the pulls received, in order. *)
Fixpoint run (g : gen) (sched : list action) : option (gen * list pulled) :=
  match sched with
  | [] => Some (g, [])
  | a :: sched' =>
      match step g a with
      | None => None
      | Some (g', o) =>
          match run g' sched' with
          | None => None
          | Some (g'', outs) => Some (g'', emit_opt o ++ outs)
          end
      end
  end.

(** The driver's callbacks in a schedule, in order. *)
Definition is_callback (a : action) : bool :=
  match a with Pull | Resume => false | _ => true end.

Definition callbacks (sched : list action) : list action :=
  filter (λ a, is_callback a = true) sched.

(** The consumer keeps iterating with no further callback: it pulls, and
    lets the awaited promise's continuation run, until the generator
    completes. [fuel] bounds the number of steps. *)
Fixpoint drain (fuel : nat) (g : gen) : gen * list pulled :=
  match fuel with
  | 0 => (g, [])
  | S fuel' =>
      match pos g with
      | Completed => (g, [])
      | AtAwait =>
          match step g Resume with
          | Some (g', o) =>
              let '(g'', outs) := drain fuel' g' in (g'', emit_opt o ++ outs)
          | None => (g, [])
          end
      | _ =>
          match step g Pull with
          | Some (g', o) =>
              let '(g'', outs) := drain fuel' g' in (g'', emit_opt o ++ outs)
          | None => (g, [])
          end
      end
  end.

Definition rows_of (l : list R) : list pulled :=
  map (λ r, Yielded (Some r)) l.

(** *** Invariant of a stream without driver error

    [outs] is what the pulls have received so far and [recv] the rows the
    driver has delivered so far: the rows already yielded, the row held by
    the settled promise and the queue make up [recv], in this order. *)
Definition inv (g : gen) (outs : list pulled) (recv : list R) : Prop :=
  error g = None ∧
  match pos g with
  | NotStarted =>
      outs = [] ∧ recv = [] ∧ rowQueue g = [] ∧ done g = false
      ∧ resolver g = false
  | AtYieldQueue =>
      resolver g = false ∧ ∃ d, outs = rows_of d ∧ recv = d ++ rowQueue g
  | AtAwait =>
      match awaited g with
      | Pending =>
          resolver g = true ∧ rowQueue g = [] ∧ done g = false
          ∧ outs = rows_of recv
      | Resolved (Some r) =>
          resolver g = false
          ∧ ∃ d, outs = rows_of d ∧ recv = d ++ r :: rowQueue g
      | Resolved None =>
          resolver g = false ∧ rowQueue g = [] ∧ done g = true
          ∧ outs = rows_of recv
      | Rejected _ => False
      end
  | AtYieldAwait =>
      resolver g = false
      ∧ ((∃ d, outs = rows_of d ∧ recv = d ++ rowQueue g)
         ∨ (outs = rows_of recv ++ [Yielded None]
            ∧ rowQueue g = [] ∧ done g = true))
  | Completed =>
      done g = true ∧ rowQueue g = []
      ∧ ∃ m, outs = rows_of recv ++ m ++ [Returned]
             ∧ (m = [] ∨ m = [Yielded None])
  end.

(** Steps still needed to complete once the driver is done. *)
Definition remaining (g : gen) : nat :=
  length (rowQueue g)
  + match pos g with Completed => 0 | AtAwait => 3 | _ => 2 end.

End Generator.
Arguments promise : clear implicits.
Arguments gen : clear implicits.
Arguments pulled : clear implicits.
Arguments action : clear implicits.
End StreamRows.

(** ** The pool manager *)
Module Pool.

(** [appConfig] is an object read by property name; a missing property
    reads as [undefined]. *)
Definition prop (o : gmap string jsval) (k : string) : jsval :=
  default VUndefined (o !! k).

(** A [sql.ConnectionPool]: the application configuration whose
    [createPoolConfig] it was constructed from, and the driver's
    [connected] flag. *)
Record pool := { pool_config : gmap string jsval; connected : bool }.

(** The body of the async function started by [getPool], at its two
    suspension points and after it settled. It captures [appConfig] and
    [configHash]. *)
Inductive initialization :=
| Closing (old : nat) (appConfig : gmap string jsval) (configHash : string)
| Connecting (newPool : nat) (configHash : string)
| Fulfilled (newPool : nat)
| Failed (err : string).

(** Calls on the driver, in the order they are made. *)
Inductive driver_call :=
| Close (p : nat)
| Construct (p : nat)
| Connect (p : nat).

(** The three module variables, with the pools constructed and the
    initialisations started so far (each named by its index) and the
    driver calls made so far. *)
Record state := {
  globalPool : option nat;
  currentConfigHash : option string;
  poolInitializationPromise : option nat;
  pools : list pool;
  inits : list initialization;
  trace : list driver_call
}.

Definition init : state :=
  {| globalPool := None; currentConfigHash := None;
     poolInitializationPromise := None;
     pools := []; inits := []; trace := [] |}.

(** What the promise returned by [getPool] is tied to: a pool at once, or
    the outcome of an initialisation. *)
Inductive answer :=
| Now (p : nat)
| Later (i : nat).

Definition is_connected (s : state) (p : nat) : bool :=
  match pools s !! p with Some pl => connected pl | None => false end.

Definition set_connected (b : bool) (pl : pool) : pool :=
  {| pool_config := pool_config pl; connected := b |}.

Section Manager.
(** [crypto]'s SHA-256 hex digest and [JSON.stringify] are the runtime's. *)
Variable sha256_hex : string → string.
Variable JSON_stringify : gmap string jsval → string.

Definition configForHash (appConfig : gmap string jsval)
    : gmap string jsval :=
  list_to_map
    [("server", prop appConfig "server");
     ("port", prop appConfig "port");
     ("database", prop appConfig "database");
     ("username", prop appConfig "username");
     ("password", prop appConfig "password");
     ("encrypt", prop appConfig "encrypt");
     ("trustServerCertificate", prop appConfig "trustServerCertificate");
     ("caCertificate", prop appConfig "caCertificate");
     ("connectionTimeout", prop appConfig "connectionTimeout");
     ("requestTimeout", prop appConfig "requestTimeout")].

Definition getConfigHash (appConfig : gmap string jsval) : string :=
  sha256_hex (JSON_stringify (configForHash appConfig)).

(** [new sql.ConnectionPool(poolConfig)] followed by [newPool.connect()],
    up to the [await]. *)
Definition create_and_connect (appConfig : gmap string jsval)
    (configHash : string) (g : option nat) (s : state)
    : state * initialization :=
  let p := length (pools s) in
  ({| globalPool := g;
      currentConfigHash := currentConfigHash s;
      poolInitializationPromise := poolInitializationPromise s;
      pools := pools s ++ [{| pool_config := appConfig; connected := false |}];
      inits := inits s;
      trace := trace s ++ [Construct p; Connect p] |},
   Connecting p configHash).

(** The async function of [getPool], from its start to its first [await];
    [globalPool.close()] clears the driver's [connected] flag at once. *)
Definition start_initialization (appConfig : gmap string jsval)
    (configHash : string) (s : state) : state * initialization :=
  match globalPool s with
  | Some old =>
      if bool_decide (currentConfigHash s ≠ Some configHash)
      then ({| globalPool := globalPool s;
               currentConfigHash := currentConfigHash s;
               poolInitializationPromise := poolInitializationPromise s;
               pools := alter (set_connected false) old (pools s);
               inits := inits s;
               trace := trace s ++ [Close old] |},
            Closing old appConfig configHash)
      else create_and_connect appConfig configHash (globalPool s) s
  | None => create_and_connect appConfig configHash (globalPool s) s
  end.

(** [poolInitializationPromise = (async () => { ... })()]: the body runs
    to its first [await], then the promise is stored and returned. *)
Definition initialize (appConfig : gmap string jsval) (configHash : string)
    (s : state) : state * answer :=
  let '(s', st) := start_initialization appConfig configHash s in
  let i := length (inits s') in
  ({| globalPool := globalPool s';
      currentConfigHash := currentConfigHash s';
      poolInitializationPromise := Some i;
      pools := pools s';
      inits := inits s' ++ [st];
      trace := trace s' |}, Later i).

(** [globalPool && currentConfigHash === configHash && globalPool.connected] *)
Definition reusable (s : state) (configHash : string) : option nat :=
  match globalPool s with
  | Some p =>
      if bool_decide (currentConfigHash s = Some configHash)
         && is_connected s p
      then Some p else None
  | None => None
  end.

(** [poolInitializationPromise && currentConfigHash === configHash] *)
Definition in_progress (s : state) (configHash : string) : option nat :=
  match poolInitializationPromise s with
  | Some i =>
      if bool_decide (currentConfigHash s = Some configHash)
      then Some i else None
  | None => None
  end.

(** [getPool(appConfig)], up to the point where it returns its promise. *)
Definition getPool (s : state) (appConfig : gmap string jsval)
    : state * answer :=
  let configHash := getConfigHash appConfig in
  match reusable s configHash with
  | Some p => (s, Now p)
  | None =>
      match in_progress s configHash with
      | Some i => (s, Later i)
      | None => initialize appConfig configHash s
      end
  end.

(** The rest of the async function once [await globalPool.close()] is
    over; a rejection is caught and logged, so both outcomes continue
    alike: [globalPool = null], then the new pool. *)
Definition close_settled (i : nat) (s : state) : option state :=
  match inits s !! i with
  | Some (Closing old appConfig configHash) =>
      let '(s', st) := create_and_connect appConfig configHash None s in
      Some {| globalPool := globalPool s';
              currentConfigHash := currentConfigHash s';
              poolInitializationPromise := poolInitializationPromise s';
              pools := pools s';
              inits := <[i := st]> (inits s');
              trace := trace s' |}
  | _ => None
  end.

(** The rest of the async function once [await newPool.connect()] is
    over: on success the pool and the hash are stored; in both cases the
    [finally] block clears [poolInitializationPromise]. *)
Definition connect_settled (i : nat) (err : option string) (s : state)
    : option state :=
  match inits s !! i with
  | Some (Connecting p configHash) =>
      match err with
      | None =>
          Some {| globalPool := Some p;
                  currentConfigHash := Some configHash;
                  poolInitializationPromise := None;
                  pools := alter (set_connected true) p (pools s);
                  inits := <[i := Fulfilled p]> (inits s);
                  trace := trace s |}
      | Some e =>
          Some {| globalPool := globalPool s;
                  currentConfigHash := currentConfigHash s;
                  poolInitializationPromise := None;
                  pools := pools s;
                  inits := <[i := Failed e]> (inits s);
                  trace := trace s |}
      end
  | _ => None
  end.

(** What happens to the manager: a block calls [getPool], or an awaited
    driver call of initialisation [i] settles. *)
Inductive event :=
| Call (appConfig : gmap string jsval)
| CloseSettled (i : nat)
| ConnectSettled (i : nat) (err : option string).

Definition step (s : state) (ev : event) : option (state * list answer) :=
  match ev with
  | Call appConfig => let '(s', a) := getPool s appConfig in Some (s', [a])
  | CloseSettled i => s' ← close_settled i s; Some (s', [])
  | ConnectSettled i err => s' ← connect_settled i err s; Some (s', [])
  end.

(** Runs the events in order; the answers are those of the calls. *)
Fixpoint run (s : state) (evs : list event) : option (state * list answer) :=
  match evs with
  | [] => Some (s, [])
  | ev :: evs' =>
      '(s', a) ← step s ev;
      '(s'', a') ← run s' evs';
      Some (s'', a ++ a')
  end.

(** Initialisations that have not settled yet. *)
Definition unsettled (st : initialization) : bool :=
  match st with Closing _ _ _ | Connecting _ _ => true | _ => false end.

Definition running (s : state) : list initialization :=
  filter (λ st, unsettled st = true) (inits s).
End Manager.



End Pool.

(** ** The operation blocks *)
Module Blocks.

(** *** Strings *)

(** [s.split(sep)] for a one-character separator. *)
Fixpoint split (sep : ascii) (s : string) : list string :=
  match s with
  | EmptyString => [EmptyString]
  | String c s' =>
      if decide (c = sep) then EmptyString :: split sep s'
      else match split sep s' with
           | part :: parts => String c part :: parts
           | [] => [String c EmptyString]
           end
  end.

(** [parts.join(sep)] *)
Fixpoint join (sep : string) (parts : list string) : string :=
  match parts with
  | [] => ""
  | [part] => part
  | part :: parts' => part +:+ sep +:+ join sep parts'
  end.

(** [name.replace(/[\[\]]/g, "")] *)
Fixpoint remove_brackets (name : string) : string :=
  match name with
  | EmptyString => EmptyString
  | String c name' =>
      if decide (c = "["%char ∨ c = "]"%char) then remove_brackets name'
      else String c (remove_brackets name')
  end.

Definition sanitizeIdentifier (name : string) : string :=
  let cleaned := remove_brackets name in
  "[" +:+ cleaned +:+ "]".

Definition sanitizeTableName (tableName : string) : string :=
  let parts := split "."%char tableName in
  join "." (map sanitizeIdentifier parts).

(** *** Values and rows *)

(** [typeof value === "bigint" ? value.toString() : value] *)
Definition serializeValue (value : jsval) : jsval :=
  match value with
  | VBigInt n => VStr (pretty n)
  | _ => value
  end.

(** The loop [for (const [key, value] of Object.entries(row))] that fills
    [serializedRow], starting from the empty object [{}]. On such an
    object the assignment [serializedRow["__proto__"] = ...] runs the
    inherited setter and creates no property, so a field with that key is
    not copied. *)
Definition serializeRow (r : row) : row :=
  map_fold (λ key value serializedRow,
              if bool_decide (key = "__proto__") then serializedRow
              else <[key := serializeValue value]> serializedRow) ∅ r.

(** [row.name], [undefined] when the row has no such property. *)
Definition field (r : row) (name : string) : jsval :=
  default VUndefined (r !! name).

(** [value === "text"] *)
Definition is_string (text : string) (value : jsval) : bool :=
  match value with VStr s => bool_decide (s = text) | _ => false end.

(** *** The driver and the platform, as seen from a handler *)

(** A [sql.Request]: the parameters bound with [request.input], in call
    order. *)
Record request := { inputs : list (string * jsval) }.

(** [request.input(name, value)] once the driver has accepted the name: the
    parameter is added to the request. *)
Definition input (name : string) (value : jsval) (rq : request) : request :=
  {| inputs := inputs rq ++ [(name, value)] |}.

(** What [await request.query(...)] resolves to. *)
Record query_result := { recordset : list row; rowsAffected : list Z }.

Record column_info := {
  col_name : jsval; col_dataType : jsval; col_nullable : bool;
  col_defaultValue : jsval; col_maxLength : jsval;
  col_numericPrecision : jsval; col_numericScale : jsval; col_comment : jsval
}.

Record constraint_info := {
  con_name : jsval; con_type : jsval; con_columns : jsval;
  con_foreignTableSchema : jsval; con_foreignTableName : jsval;
  con_foreignColumns : jsval
}.

Record index_info := {
  idx_name : jsval; idx_isUnique : jsval; idx_isPrimary : jsval;
  idx_columns : jsval
}.

(** The payloads given to [events.emit], one shape per block. *)
Inductive event :=
| QueryResult (rows : list row)
| CommandResult (affected : Z)
| InsertResult (rowCount : Z) (table : string)
| Batch (batchNumber : nat) (rows : list row) (rowCount : nat) (hasMore : bool)
| TableInformation (schema tableName tableType tableComment : jsval)
    (columns : list column_info) (constraints : list constraint_info)
    (indexes : list index_info).

(** What a handler does to the outside, in order. *)
Inductive effect :=
| RequestCreated
| QuerySent (sql : string) (params : list (string * jsval))
| Emitted (ev : event).

Definition is_query (e : effect) : bool :=
  match e with QuerySent _ _ => true | _ => false end.

Definition queries (log : list effect) : list effect :=
  filter (λ e, is_query e = true) log.

Definition emitted (log : list effect) : list event :=
  omap (λ e, match e with Emitted ev => Some ev | _ => None end) log.

Definition is_emit (e : effect) : bool :=
  match e with Emitted _ => true | _ => false end.

(** What a handler asked of the driver: the requests it created and the
    statements it sent, in order. *)
Definition driver_calls (log : list effect) : list effect :=
  filter (λ e, is_emit e = false) log.

(** A handler: it extends the log of effects and either throws (the
    promise of [onEvent] rejects) or returns. *)
Definition M (A : Type) : Type := list effect → (string + A) * list effect.

Definition ret {A} (a : A) : M A := λ log, (inr a, log).
Definition throw {A} (e : string) : M A := λ log, (inl e, log).
Definition bind {A B} (m : M A) (k : A → M B) : M B :=
  λ log, match m log with
         | (inl e, log') => (inl e, log')
         | (inr a, log') => k a log'
         end.

Notation "'let*' x := m 'in' k" := (bind m (λ x, k))
  (at level 10, x pattern, m at level 100, k at level 200).

(** [events.emit(payload)] *)
Definition emit (ev : event) : M unit := λ log, (inr tt, log ++ [Emitted ev]).

(** [pool.request()] *)
Definition pool_request : M request :=
  λ log, (inr {| inputs := [] |}, log ++ [RequestCreated]).

(** The SQL texts of the table introspection block. *)
Definition tableQuery : string := "
          SELECT
            s.name AS table_schema,
            t.name AS table_name,
            CASE WHEN t.type = 'U' THEN 'BASE TABLE' WHEN t.type = 'V' THEN 'VIEW' END AS table_type,
            CAST(ep.value AS NVARCHAR(MAX)) AS table_comment
          FROM sys.tables t
          INNER JOIN sys.schemas s ON t.schema_id = s.schema_id
          LEFT JOIN sys.extended_properties ep
            ON ep.major_id = t.object_id AND ep.minor_id = 0 AND ep.name = 'MS_Description'
          WHERE s.name = @p1 AND t.name = @p2
        ".

Definition columnsQuery : string := "
          SELECT
            c.name AS column_name,
            TYPE_NAME(c.user_type_id) AS data_type,
            CASE WHEN c.is_nullable = 1 THEN 'YES' ELSE 'NO' END AS is_nullable,
            dc.definition AS column_default,
            c.max_length AS character_maximum_length,
            c.precision AS numeric_precision,
            c.scale AS numeric_scale,
            CAST(ep.value AS NVARCHAR(MAX)) AS column_comment
          FROM sys.columns c
          INNER JOIN sys.tables t ON c.object_id = t.object_id
          INNER JOIN sys.schemas s ON t.schema_id = s.schema_id
          LEFT JOIN sys.default_constraints dc ON c.default_object_id = dc.object_id
          LEFT JOIN sys.extended_properties ep
            ON ep.major_id = c.object_id AND ep.minor_id = c.column_id AND ep.name = 'MS_Description'
          WHERE s.name = @p1 AND t.name = @p2
          ORDER BY c.column_id
        ".

Definition constraintsQuery : string := "
          SELECT
            kc.name AS constraint_name,
            kc.type_desc AS constraint_type,
            STRING_AGG(c.name, ', ') WITHIN GROUP (ORDER BY ic.key_ordinal) AS columns,
            NULL AS foreign_table_schema,
            NULL AS foreign_table_name,
            NULL AS foreign_columns
          FROM sys.key_constraints kc
          INNER JOIN sys.tables t ON kc.parent_object_id = t.object_id
          INNER JOIN sys.schemas s ON t.schema_id = s.schema_id
          INNER JOIN sys.index_columns ic ON kc.parent_object_id = ic.object_id AND kc.unique_index_id = ic.index_id
          INNER JOIN sys.columns c ON ic.object_id = c.object_id AND ic.column_id = c.column_id
          WHERE s.name = @p1 AND t.name = @p2
          GROUP BY kc.name, kc.type_desc

          UNION ALL

          SELECT
            fk.name AS constraint_name,
            'FOREIGN_KEY' AS constraint_type,
            STRING_AGG(pc.name, ', ') WITHIN GROUP (ORDER BY fkc.constraint_column_id) AS columns,
            rs.name AS foreign_table_schema,
            rt.name AS foreign_table_name,
            STRING_AGG(rc.name, ', ') WITHIN GROUP (ORDER BY fkc.constraint_column_id) AS foreign_columns
          FROM sys.foreign_keys fk
          INNER JOIN sys.tables pt ON fk.parent_object_id = pt.object_id
          INNER JOIN sys.schemas ps ON pt.schema_id = ps.schema_id
          INNER JOIN sys.tables rt ON fk.referenced_object_id = rt.object_id
          INNER JOIN sys.schemas rs ON rt.schema_id = rs.schema_id
          INNER JOIN sys.foreign_key_columns fkc ON fk.object_id = fkc.constraint_object_id
          INNER JOIN sys.columns pc ON fkc.parent_object_id = pc.object_id AND fkc.parent_column_id = pc.column_id
          INNER JOIN sys.columns rc ON fkc.referenced_object_id = rc.object_id AND fkc.referenced_column_id = rc.column_id
          WHERE ps.name = @p1 AND pt.name = @p2
          GROUP BY fk.name, rs.name, rt.name
        ".

Definition indexesQuery : string := "
          SELECT
            i.name AS index_name,
            i.is_unique,
            i.is_primary_key AS is_primary,
            STRING_AGG(c.name, ', ') WITHIN GROUP (ORDER BY ic.key_ordinal) AS columns
          FROM sys.indexes i
          INNER JOIN sys.tables t ON i.object_id = t.object_id
          INNER JOIN sys.schemas s ON t.schema_id = s.schema_id
          INNER JOIN sys.index_columns ic ON i.object_id = ic.object_id AND i.index_id = ic.index_id
          INNER JOIN sys.columns c ON ic.object_id = c.object_id AND ic.column_id = c.column_id
          WHERE s.name = @p1 AND t.name = @p2 AND i.name IS NOT NULL
          GROUP BY i.name, i.is_unique, i.is_primary_key
        ".

Definition column_of (col : row) : column_info :=
  {| col_name := field col "column_name";
     col_dataType := field col "data_type";
     col_nullable := is_string "YES" (field col "is_nullable");
     col_defaultValue := field col "column_default";
     col_maxLength := field col "character_maximum_length";
     col_numericPrecision := field col "numeric_precision";
     col_numericScale := field col "numeric_scale";
     col_comment := field col "column_comment" |}.

Definition constraint_of (con : row) : constraint_info :=
  {| con_name := field con "constraint_name";
     con_type := field con "constraint_type";
     con_columns := field con "columns";
     con_foreignTableSchema := field con "foreign_table_schema";
     con_foreignTableName := field con "foreign_table_name";
     con_foreignColumns := field con "foreign_columns" |}.

Definition index_of (idx : row) : index_info :=
  {| idx_name := field idx "index_name";
     idx_isUnique := field idx "is_unique";
     idx_isPrimary := field idx "is_primary";
     idx_columns := field idx "columns" |}.

(** *** The handlers *)
Section Handlers.
(** What the database answers to a statement and its bound parameters,
    given everything the handler did before. *)
Variable database :
  list effect → string → list (string * jsval) → string + query_result.
(** What the driver's [request.input(name, value)] throws for a parameter
    the user defined, [None] when it accepts it. (The driver refuses names
    it takes for an injection attempt, such as one with a blank. The names
    the blocks choose themselves, [p1], [p2], ..., are accepted.) *)
Variable input_error : string → jsval → option string.
(** How [await getPool(input.app.config)] ended: [None] when it resolved
    with a pool, [Some e] when it rejected with [e]. *)
Variable getPool_rejected : option string.

Definition acquire_pool : M unit :=
  match getPool_rejected with Some e => throw e | None => ret tt end.

(** [await request.query(sql)] *)
Definition request_query (rq : request) (sql : string) : M query_result :=
  λ log,
    let log' := log ++ [QuerySent sql (inputs rq)] in
    match database log sql (inputs rq) with
    | inl e => (inl e, log')
    | inr result => (inr result, log')
    end.

(** [request.input(name, value)] for a user-defined parameter. *)
Definition request_input (name : string) (value : jsval) (rq : request)
    : M request :=
  match input_error name value with
  | Some e => throw e
  | None => ret (input name value rq)
  end.

(** [for (const [name, value] of entries) request.input(name, value)] *)
Fixpoint bind_entries (entries : list (string * jsval)) (rq : request)
    : M request :=
  match entries with
  | [] => ret rq
  | (name, value) :: entries' =>
      let* rq := request_input name value rq in
      bind_entries entries' rq
  end.

(** [for (const [name, value] of Object.entries(params)) request.input(name, value)],
    with [params = parameters || {}]; an object is given by its entries.
    The loop ends at the first parameter the driver refuses. *)
Definition bind_parameters (parameters : option (list (string * jsval)))
    (rq : request) : M request :=
  let params := default [] parameters in
  bind_entries params rq.

(** [result.rowsAffected.reduce((sum, count) => sum + count, 0)] *)
Definition totalRowsAffected (result : query_result) : Z :=
  fold_left (λ sum count, (sum + count)%Z) (rowsAffected result) 0%Z.

Definition executeQuery (query : string)
    (parameters : option (list (string * jsval))) : M unit :=
  let* _ := acquire_pool in
  let* request := pool_request in
  let* request := bind_parameters parameters request in
  let* result := request_query request query in
  let rows := map serializeRow (recordset result) in
  emit (QueryResult rows).

Definition executeCommand (command : string)
    (parameters : option (list (string * jsval))) : M unit :=
  let* _ := acquire_pool in
  let* request := pool_request in
  let* request := bind_parameters parameters request in
  let* result := request_query request command in
  emit (CommandResult (totalRowsAffected result)).

(** The inner loop of the bulk insert, [for (const value of row)]: the
    request, [paramIndex] and [rowPlaceholders] as they change. The template
    literal prints [paramIndex], a positive integer, in decimal. *)
Definition bind_cell (st : request * nat * list string) (value : jsval)
    : request * nat * list string :=
  let '(rq, paramIndex, rowPlaceholders) := st in
  (input ("p" +:+ pretty paramIndex) (serializeValue value) rq,
   S paramIndex,
   rowPlaceholders ++ ["@p" +:+ pretty paramIndex]).

(** The outer loop, [for (const row of rowsData)]: the request,
    [paramIndex] and [valuePlaceholders] as they change. *)
Definition bind_row (st : request * nat * list string) (r : list jsval)
    : request * nat * list string :=
  let '(rq, paramIndex, valuePlaceholders) := st in
  let '(rq', paramIndex', rowPlaceholders) :=
    fold_left bind_cell r (rq, paramIndex, []) in
  (rq', paramIndex',
   valuePlaceholders ++ ["(" +:+ join ", " rowPlaceholders +:+ ")"]).

Definition bulkInsert (table : string) (columns : list string)
    (rows : list (list jsval)) : M unit :=
  let* _ := acquire_pool in
  let rowsData := rows in
  if bool_decide (length rowsData = 0) then emit (InsertResult 0 table)
  else
    let* request := pool_request in
    let columnsList := join ", " (map (λ col, "[" +:+ col +:+ "]") columns) in
    let '(request, _, valuePlaceholders) :=
      fold_left bind_row rowsData (request, 1, []) in
    let safeTableName := sanitizeTableName table in
    let insertQuery :=
      "INSERT INTO " +:+ safeTableName +:+ " (" +:+ columnsList
      +:+ ") VALUES " +:+ join ", " valuePlaceholders in
    let* result := request_query request insertQuery in
    let total := totalRowsAffected result in
    emit (InsertResult
            (if bool_decide (total = 0%Z)
             then Z.of_nat (length rowsData) else total)
            table).

(** [(configBatchSize as number) || 100] *)
Definition batch_size (configBatchSize : option Z) : Z :=
  match configBatchSize with
  | None => 100
  | Some b => if bool_decide (b = 0%Z) then 100%Z else b
  end.

(** [request.query(query)] inside [streamRows], run by the first pull: the
    statement is sent, its rows come back through the listeners. *)
Definition stream_started (rq : request) (query : string) : M unit :=
  λ log, (inr tt, log ++ [QuerySent query (inputs rq)]).

(** [for await (const row of streamRows(request, query))]: [pulls] is what
    the successive pulls receive; the loop leaves at [undefined], at the end
    of the sequence, or by the error thrown into it. *)
Fixpoint for_await (batchSize : Z) (pulls : list (StreamRows.pulled row string))
    (batchNumber : nat) (currentBatch : list row) : M (nat * list row) :=
  match pulls with
  | [] => ret (batchNumber, currentBatch)
  | StreamRows.Returned :: _ => ret (batchNumber, currentBatch)
  | StreamRows.Thrown e :: _ => throw e
  | StreamRows.Yielded None :: _ => ret (batchNumber, currentBatch)
  | StreamRows.Yielded (Some r) :: pulls' =>
      let currentBatch := currentBatch ++ [serializeRow r] in
      if bool_decide (batchSize ≤ Z.of_nat (length currentBatch))%Z
      then
        let* _ := emit (Batch batchNumber currentBatch
                          (length currentBatch) true) in
        for_await batchSize pulls' (S batchNumber) []
      else for_await batchSize pulls' batchNumber currentBatch
  end.

(** [if (currentBatch.length > 0) await events.emit({ ..., hasMore: false })],
    after the loop. *)
Definition emit_remaining (st : nat * list row) : M unit :=
  let '(batchNumber, currentBatch) := st in
  if bool_decide (0 < length currentBatch)
  then emit (Batch batchNumber currentBatch (length currentBatch) false)
  else ret tt.

Definition streamQuery (query : string)
    (parameters : option (list (string * jsval)))
    (configBatchSize : option Z)
    (pulls : list (StreamRows.pulled row string)) : M unit :=
  let batchSize := batch_size configBatchSize in
  let* _ := acquire_pool in
  let* request := pool_request in
  let* request := bind_parameters parameters request in
  let* _ := stream_started request query in
  let* st := for_await batchSize pulls 0 [] in
  emit_remaining st.

(** A request with [p1] and [p2] bound, then its query. *)
Definition introspect (sql : string) (actualSchema table : string)
    : M query_result :=
  let* request := pool_request in
  let request := input "p1" (VStr actualSchema) request in
  let request := input "p2" (VStr table) request in
  request_query request sql.

Definition getTableInfo (schemaName : option string) (table : string)
    : M unit :=
  let actualSchema :=
    match schemaName with
    | Some s => if bool_decide (s = "") then "dbo" else s
    | None => "dbo"
    end in
  let* _ := acquire_pool in
  let* tableResult := introspect tableQuery actualSchema table in
  match recordset tableResult with
  | [] => throw ("Table " +:+ actualSchema +:+ "." +:+ table +:+ " not found")
  | tableInfo :: _ =>
      let* columnsResult := introspect columnsQuery actualSchema table in
      let* constraintsResult := introspect constraintsQuery actualSchema table in
      let* indexesResult := introspect indexesQuery actualSchema table in
      emit (TableInformation
              (field tableInfo "table_schema")
              (field tableInfo "table_name")
              (field tableInfo "table_type")
              (field tableInfo "table_comment")
              (map column_of (recordset columnsResult))
              (map constraint_of (recordset constraintsResult))
              (map index_of (recordset indexesResult)))
  end.

(** The error of the first entry the driver refuses, if any. *)
Fixpoint first_refused (entries : list (string * jsval)) : option string :=
  match entries with
  | [] => None
  | (name, value) :: entries' =>
      match input_error name value with
      | Some e => Some e
      | None => first_refused entries'
      end
  end.

(** The driver accepts every user-defined parameter. *)
Definition accepted (parameters : option (list (string * jsval))) : Prop :=
  first_refused (default [] parameters) = None.
End Handlers.

(** *** The bulk insert as the specification words it *)

(** Every cell, row after row. *)
Definition cells (rows : list (list jsval)) : list jsval := concat rows.

(** The parameters bound: [p1], [p2], ... one per cell in row-major order,
    a bigint as its decimal text. *)
Definition claimed_bindings (rows : list (list jsval))
    : list (string * jsval) :=
  zip_with (λ i value, ("p" +:+ pretty i, serializeValue value))
    (seq 1 (length (cells rows))) (cells rows).

(** One parenthesised group per row, naming the parameters of its cells;
    [first] is the number of the row's first cell. *)
Fixpoint claimed_groups (first : nat) (rows : list (list jsval))
    : list string :=
  match rows with
  | [] => []
  | r :: rows' =>
      ("(" +:+ join ", " (map (λ i, "@p" +:+ pretty i) (seq first (length r)))
       +:+ ")")
      :: claimed_groups (first + length r) rows'
  end.

Definition claimed_table (table : string) : string :=
  join "." (map (λ part, "[" +:+ remove_brackets part +:+ "]")
              (split "."%char table)).

Definition claimed_statement (table : string) (columns : list string)
    (rows : list (list jsval)) : string :=
  "INSERT INTO " +:+ claimed_table table
  +:+ " (" +:+ join ", " (map (λ col, "[" +:+ col +:+ "]") columns)
  +:+ ") VALUES " +:+ join ", " (claimed_groups 1 rows).


(** *** Batches as the specification words them *)

(** [l] cut into pieces of [b] elements, the last one possibly shorter. *)
Fixpoint chunks_upto {A} (fuel b : nat) (l : list A) : list (list A) :=
  match fuel with
  | 0 => []
  | S fuel' =>
      match l with
      | [] => []
      | _ => take b l :: chunks_upto fuel' b (drop b l)
      end
  end.

Definition chunks {A} (b : nat) (l : list A) : list (list A) :=
  chunks_upto (length l) b l.

(** The batch events for the pieces: numbered from [first], [rowCount] the
    length of the piece, [hasMore] set on the pieces of full size. *)
Definition numbered (b first : nat) (pieces : list (list row)) : list event :=
  imap (λ i piece, Batch (first + i) piece (length piece)
                     (bool_decide (length piece = b))) pieces.

(** What the pulls of a stream of [rows] receive when no error occurs: the
    rows, the end marker [undefined] or not, the end. *)
Definition stream_of (rows : list row) (marker : bool)
    : list (StreamRows.pulled row string) :=
  StreamRows.rows_of rows
  ++ (if marker then [StreamRows.Yielded None] else [])
  ++ [StreamRows.Returned].

Definition event_rows (ev : event) : list row :=
  match ev with
  | QueryResult rows => rows
  | Batch _ rows _ _ => rows
  | _ => []
  end.

Definition hasMore_of (ev : event) : option bool :=
  match ev with Batch _ _ _ h => Some h | _ => None end.

End Blocks.

(** Schedules used as concrete instances below; rows and errors are numbers. *)
Module Scenarios.
Import StreamRows.

(** The consumer is waiting both when the row and when [done] arrive. *)
Definition done_while_waiting : list (action nat nat) :=
  [Pull; OnRow 7; Resume; Pull; OnDone; Resume; Pull].

(** Two rows and [done] arrive in one go after the first pull. *)
Definition burst : list (action nat nat) :=
  [Pull; OnRow 1; OnRow 2; OnDone].

(** Stand-ins for the runtime's [JSON.stringify] and SHA-256 where an
    instance has to name some function: the properties below hold for
    every choice. *)
Definition server_text (o : gmap string jsval) : string :=
  match o !! "server" with Some (VStr s) => s | _ => "" end.
Definition same_text (s : string) : string := s.

Definition cfgA : gmap string jsval := {[ "server" := VStr "db-a" ]}.
Definition cfgB : gmap string jsval := {[ "server" := VStr "db-b" ]}.

(** A manager holding a connected pool built from [cfgA]. *)
Definition serving_A : Pool.state :=
  {| Pool.globalPool := Some 0;
     Pool.currentConfigHash := Some "db-a";
     Pool.poolInitializationPromise := None;
     Pool.pools := [{| Pool.pool_config := cfgA; Pool.connected := true |}];
     Pool.inits := [Pool.Fulfilled 0];
     Pool.trace := [Pool.Construct 0; Pool.Connect 0] |}.

(** A manager whose stored pool was dropped by the server while its hash
    is kept, with a reconnecting initialisation in progress. *)
Definition reconnecting_A : Pool.state :=
  {| Pool.globalPool := Some 0;
     Pool.currentConfigHash := Some "db-a";
     Pool.poolInitializationPromise := Some 1;
     Pool.pools := [{| Pool.pool_config := cfgA; Pool.connected := false |};
                    {| Pool.pool_config := cfgA; Pool.connected := false |}];
     Pool.inits := [Pool.Fulfilled 0; Pool.Connecting 1 "db-a"];
     Pool.trace := [Pool.Construct 0; Pool.Connect 0;
                    Pool.Construct 1; Pool.Connect 1] |}.

(** A database that answers every statement with one row and one
    affected row. *)
Definition one_row_database
    : list Blocks.effect → string → list (string * jsval)
      → string + Blocks.query_result :=
  λ _ _ _, inr {| Blocks.recordset := [{[ "table_name" := VStr "users" ]}];
                  Blocks.rowsAffected := [1%Z] |}.

(** Two rows with a bigint column. *)
Definition two_rows : list row :=
  [{[ "id" := VBigInt 1 ]}; {[ "id" := VBigInt 2 ]}].
End Scenarios.

(** ** The row stream adapter under arbitrary schedules

    What a schedule delivers and what the pulls observe, for schedules in
    which the driver may also report errors, and the invariant that relates
    the two. *)
Module StreamTrace.
Import StreamRows.
Section Trace.
Context {R E : Type}.

(** The rows among what the pulls received. *)
Definition yielded_rows (outs : list (pulled R E)) : list R :=
  omap (λ p, match p with Yielded (Some r) => Some r | _ => None end) outs.

(** The rows the driver delivered in a schedule, in order. *)
Definition received (sched : list (action R E)) : list R :=
  omap (λ a, match a with OnRow r => Some r | _ => None end) sched.

(** The rows the generator still holds for the consumer: the row the
    awaited promise was resolved with, then the queue. [None] once nothing
    more can be yielded (the awaited promise is rejected, or the generator
    has completed). *)
Definition pipeline (g : gen R E) : option (list R) :=
  match pos g with
  | NotStarted | AtYieldQueue | AtYieldAwait => Some (rowQueue g)
  | AtAwait =>
      match awaited g with
      | Pending | Resolved None => Some (rowQueue g)
      | Resolved (Some r) => Some (r :: rowQueue g)
      | Rejected _ => None
      end
  | Completed => None
  end.

(** The consumer's next step: the continuation of the awaited promise when
    the generator is suspended there, a pull otherwise. *)
Definition next_answer (g : gen R E) : option (gen R E * option (pulled R E)) :=
  match pos g with
  | AtAwait => step g Resume
  | _ => step g Pull
  end.

(** The states in which an error reported now is what the consumer's next
    step receives: suspended at the yield from the queue; waiting on a
    pending promise; suspended at the yield of an awaited row, unless [done]
    has been seen and the queue is empty. *)
Definition raises_next (g : gen R E) : bool :=
  match pos g with
  | AtYieldQueue => true
  | AtAwait => match awaited g with Pending => true | _ => false end
  | AtYieldAwait => negb (done g && bool_decide (length (rowQueue g) = 0))
  | NotStarted | Completed => false
  end.

(** The flags and the rows in flight: [ys] are the rows yielded so far,
    [recv] the rows delivered so far. *)
Definition shape (g : gen R E) (ys recv : list R) : Prop :=
  (resolver g = true →
   pos g = Completed ∨ (pos g = AtAwait ∧ ∀ v, awaited g ≠ Resolved v))
  ∧ (pos g = AtAwait → awaited g = Pending →
     resolver g = true ∧ rejecter g = true ∧ rowQueue g = []
     ∧ error g = None ∧ done g = false)
  ∧ match pipeline g with
    | Some q => recv = ys ++ q
    | None => ys `prefix_of` recv
    end.

(** Invariant of every run: [hist] is the schedule so far, [outs] what the
    pulls received so far. *)
Definition safe (hist : list (action R E)) (g : gen R E)
    (outs : list (pulled R E)) : Prop :=
  (done g = true → OnDone ∈ hist)
  ∧ (∀ e, error g = Some e → OnError e ∈ hist)
  ∧ (∀ e, awaited g = Rejected e → OnError e ∈ hist)
  ∧ (awaited g = Resolved None → OnDone ∈ hist)
  ∧ (Returned ∈ outs → OnDone ∈ hist)
  ∧ (∀ e, Thrown e ∈ outs → OnError e ∈ hist)
  ∧ (Yielded None ∈ outs → OnDone ∈ hist)
  ∧ shape g (yielded_rows outs) (received hist).

End Trace.
End StreamTrace.

(** ** The pool configuration *)
Module PoolConfig.

(** JavaScript truthiness, as used by [value ? a : b], [!value] and
    [value || other]. *)
Definition truthy (v : jsval) : bool :=
  match v with
  | VUndefined | VNull => false
  | VBool b => b
  | VNum n => negb (bool_decide (n = 0%Z))
  | VStr s => negb (bool_decide (s = ""))
  | VBigInt n => negb (bool_decide (n = 0%Z))
  | VArr _ => true
  end.

(** The driver's [sql.config] object as the application builds it; [ca] is
    [cryptoCredentialsDetails.ca], [None] when [cryptoCredentialsDetails]
    is [undefined]; the [pool] settings left out are [None]. *)
Record sql_config := {
  server : jsval;
  port : jsval;
  database : jsval;
  user : jsval;
  password : jsval;
  connectionTimeout : jsval;
  requestTimeout : jsval;
  pool_max : Z;
  pool_min : option Z;
  pool_idleTimeoutMillis : option Z;
  encrypt : jsval;
  trustServerCertificate : jsval;
  ca : option jsval
}.

(** The properties of the application configuration that [getConfigHash]
    puts into the hashed object. *)
Definition hashed_properties : list string :=
  ["server"; "port"; "database"; "username"; "password"; "encrypt";
   "trustServerCertificate"; "caCertificate"; "connectionTimeout";
   "requestTimeout"].

Section Config.
(** The runtime's product [value * 1000]. *)
Variable times_1000 : jsval → jsval.

(** [createPoolConfig] of the pool manager. *)
Definition createPoolConfig (appConfig : gmap string jsval) : sql_config :=
  {| server := Pool.prop appConfig "server";
     port := Pool.prop appConfig "port";
     database := Pool.prop appConfig "database";
     user := Pool.prop appConfig "username";
     password := Pool.prop appConfig "password";
     connectionTimeout := times_1000 (Pool.prop appConfig "connectionTimeout");
     requestTimeout := Pool.prop appConfig "requestTimeout";
     pool_max := 10;
     pool_min := Some 0%Z;
     pool_idleTimeoutMillis := Some 30000%Z;
     encrypt := Pool.prop appConfig "encrypt";
     trustServerCertificate := Pool.prop appConfig "trustServerCertificate";
     ca := if truthy (Pool.prop appConfig "caCertificate")
           then Some (Pool.prop appConfig "caCertificate") else None |}.

(** The [poolConfig] that [onSync] of main.ts builds for its connection
    test. *)
Definition syncPoolConfig (config : gmap string jsval) : sql_config :=
  {| server := Pool.prop config "server";
     port := Pool.prop config "port";
     database := Pool.prop config "database";
     user := Pool.prop config "username";
     password := Pool.prop config "password";
     connectionTimeout := times_1000 (Pool.prop config "connectionTimeout");
     requestTimeout := Pool.prop config "requestTimeout";
     pool_max := 1;
     pool_min := None;
     pool_idleTimeoutMillis := None;
     encrypt := Pool.prop config "encrypt";
     trustServerCertificate := Pool.prop config "trustServerCertificate";
     ca := if truthy (Pool.prop config "caCertificate")
           then Some (Pool.prop config "caCertificate") else None |}.
End Config.

(** The same settings with other pool limits. *)
Definition with_limits (max : Z) (min idle : option Z) (c : sql_config)
    : sql_config :=
  {| server := server c; port := port c; database := database c;
     user := user c; password := password c;
     connectionTimeout := connectionTimeout c;
     requestTimeout := requestTimeout c;
     pool_max := max; pool_min := min; pool_idleTimeoutMillis := idle;
     encrypt := encrypt c;
     trustServerCertificate := trustServerCertificate c; ca := ca c |}.

End PoolConfig.

(** ** The pool manager over its runs *)
Module PoolTrace.
Import Pool.

(** One uninterrupted call whose configuration hash differs from the stored
    one and whose connect is rejected with [e]. *)
Definition failing_call (s : state) (appConfig : gmap string jsval)
    (e : string) : list event :=
  Call appConfig
  :: match globalPool s with
     | Some _ => [CloseSettled (length (inits s))]
     | None => []
     end
  ++ [ConnectSettled (length (inits s)) (Some e)].

Section Trace.
Variable sha256_hex : string → string.
Variable JSON_stringify : gmap string jsval → string.

(** What the stored variables say about the pools and the initialisations,
    in every state the manager can be in. *)
Definition coherent (s : state) : Prop :=
  (∀ p, globalPool s = Some p →
     ∃ c, pool_config <$> pools s !! p = Some c
          ∧ currentConfigHash s
            = Some (getConfigHash sha256_hex JSON_stringify c))
  ∧ (∀ i p h, inits s !! i = Some (Connecting p h) →
       ∃ c, pool_config <$> pools s !! p = Some c
            ∧ h = getConfigHash sha256_hex JSON_stringify c)
  ∧ (∀ i old appConfig h, inits s !! i = Some (Closing old appConfig h) →
       h = getConfigHash sha256_hex JSON_stringify appConfig)
  ∧ (∀ i, poolInitializationPromise s = Some i →
       ∃ st, inits s !! i = Some st ∧ unsettled st = true).
End Trace.
End PoolTrace.

(** ** The blocks: further notions *)
Module BlocksMore.
Import Blocks.

(** [schemaName || "dbo"] of the table introspection block. *)
Definition actualSchema (schemaName : option string) : string :=
  match schemaName with
  | Some s => if bool_decide (s = "") then "dbo" else s
  | None => "dbo"
  end.

(** The statements of the table introspection block. *)
Definition introspection_statements : list string :=
  [tableQuery; columnsQuery; constraintsQuery; indexesQuery].

(** Whether the character occurs in the string. *)
Fixpoint occurs (c : ascii) (s : string) : bool :=
  match s with
  | EmptyString => false
  | String c' s' => bool_decide (c' = c) || occurs c s'
  end.

(** An identifier as [sanitizeIdentifier] leaves it: in square brackets,
    with no bracket and no dot inside. *)
Definition bracketed (part : string) : Prop :=
  ∃ name, part = "[" +:+ name +:+ "]"
          ∧ occurs "["%char name = false
          ∧ occurs "]"%char name = false
          ∧ occurs "."%char name = false.


(** A handler that returned, as opposed to one that threw. *)
Definition returned {A} (result : string + A) : bool :=
  match result with inr _ => true | inl _ => false end.


End BlocksMore.

(** ** The connection test of the application ([onSync] in main.ts) *)
Module Sync.
Import PoolConfig.

(** What is thrown: [error.code], [error.number] and [error.message]. *)
Record js_error := { code : jsval; number : jsval; message : string }.

(** The [TypeError] of reading a property of [undefined]. *)
Definition type_error : js_error :=
  {| code := VUndefined; number := VUndefined;
     message := "Cannot read properties of undefined" |}.

(** The driver in one connection test: whether the constructor throws, how
    the awaited calls end, and how the [n]-th call of [pool.close()] ends
    (counting from 0). *)
Record driver := {
  construct_throws : option js_error;
  connect_rejects : option js_error;
  select_rejects : option js_error;
  permission_answer : js_error + list row;
  close_rejects : nat → option js_error
}.

(** Calls on the driver, in the order they are made. *)
Inductive call :=
| Construct (config : sql_config)
| Connect
| Query (sql : string) (params : list (string * jsval))
| Close.

(** What [onSync] returns. *)
Record sync_status := {
  newStatus : string;
  customStatusDescription : option string
}.

(** [value === n] for a number literal. *)
Definition is_number (n : Z) (value : jsval) : bool :=
  match value with VNum m => bool_decide (m = n) | _ => false end.

(** The chain of tests on [error.code] and [error.number] in the [catch]
    block. *)
Definition statusDescription (error : js_error) : string :=
  if Blocks.is_string "ENOTFOUND" (code error)
     || Blocks.is_string "ECONNREFUSED" (code error)
  then "Cannot reach database server"
  else if Blocks.is_string "ESOCKET" (code error)
  then "Network error connecting to server"
  else if is_number 18456 (number error)
  then "Authentication failed"
  else if is_number 4060 (number error)
  then "Database does not exist"
  else "Connection failed".

Definition failed (description : string) : sync_status :=
  {| newStatus := "failed"; customStatusDescription := Some description |}.

Definition ready : sync_status :=
  {| newStatus := "ready"; customStatusDescription := None |}.

Definition permission_sql : string :=
  "SELECT HAS_PERMS_BY_NAME(@dbName, 'DATABASE', 'CONNECT') AS can_connect".

Section OnSync.
Variable times_1000 : jsval → jsval.

(** The [catch] block once the pool exists: [pool.close()] is called, its
    outcome is ignored, and the error is turned into a description. *)
Definition caught (calls : list call) (error : js_error)
    : sync_status * list call :=
  (failed (statusDescription error), calls ++ [Close]).

(** [await pool.close()] inside the [try] block, as the first call of
    [close]: when it rejects, the [catch] block closes again. *)
Definition close_then (d : driver) (calls : list call)
    (result : sync_status) : sync_status * list call :=
  match close_rejects d 0 with
  | Some error => caught (calls ++ [Close]) error
  | None => (result, calls ++ [Close])
  end.

Definition onSync (config : gmap string jsval) (d : driver)
    : sync_status * list call :=
  let poolConfig := syncPoolConfig times_1000 config in
  let calls := [Construct poolConfig] in
  match construct_throws d with
  | Some error => (failed (statusDescription error), calls)
  | None =>
      let calls := calls ++ [Connect] in
      match connect_rejects d with
      | Some error => caught calls error
      | None =>
          let calls := calls ++ [Query "SELECT 1" []] in
          match select_rejects d with
          | Some error => caught calls error
          | None =>
              let calls :=
                calls ++ [Query permission_sql
                            [("dbName", Pool.prop config "database")]] in
              match permission_answer d with
              | inl error => caught calls error
              | inr [] => caught calls type_error
              | inr (first :: _) =>
                  if negb (truthy (Blocks.field first "can_connect"))
                  then close_then d calls
                         (failed "Insufficient database permissions")
                  else close_then d calls ready
              end
          end
      end
  end.
End OnSync.

(** The number of calls of [pool.close()]. *)
Definition is_close (c : call) : bool :=
  match c with Close => true | _ => false end.

Definition closes (calls : list call) : nat :=
  length (filter (λ c, is_close c = true) calls).

End Sync.

(** ** Further concrete inputs *)
Module MoreScenarios.
Import StreamRows.

(** A row is delivered to a waiting pull, then the driver reports an error
    while the consumer holds the row. *)
Definition error_after_row : list (action nat nat) :=
  [Pull; OnRow 1; Resume; OnRow 2; OnError 9; Pull].

(** A stand-in for the runtime's product by 1000. *)
Definition thousandfold (v : jsval) : jsval :=
  match v with VNum n => VNum (n * 1000) | _ => VUndefined end.

(** [cfgA] with a property the pool manager does not read. *)
Definition cfgA_labelled : gmap string jsval :=
  <[ "label" := VStr "primary" ]> Scenarios.cfgA.

(** A database whose every statement returns no row. *)
Definition empty_database
    : list Blocks.effect → string → list (string * jsval)
      → string + Blocks.query_result :=
  λ _ _ _, inr {| Blocks.recordset := []; Blocks.rowsAffected := [] |}.

(** Three rows, the second with a bigint column. *)
Definition three_rows : list row :=
  [{[ "id" := VNum 1 ]}; {[ "id" := VBigInt 2 ]}; {[ "id" := VNum 3 ]}].

(** A driver that accepts every parameter, and one that refuses the names
    with a blank. *)
Definition accepts_all : string → jsval → option string := λ _ _, None.
Definition refuses_blanks : string → jsval → option string :=
  λ name _, if BlocksMore.occurs " "%char name
            then Some "SQL injection warning" else None.


(** The state after the first call ever made, its connect still awaited. *)
Definition connecting_A : Pool.state :=
  {| Pool.globalPool := None;
     Pool.currentConfigHash := None;
     Pool.poolInitializationPromise := Some 0;
     Pool.pools := [{| Pool.pool_config := Scenarios.cfgA;
                       Pool.connected := false |}];
     Pool.inits := [Pool.Connecting 0 "db-a"];
     Pool.trace := [Pool.Construct 0; Pool.Connect 0] |}.


(** A server on which the user lacks the [CONNECT] permission. *)
Definition no_permission : Sync.driver :=
  {| Sync.construct_throws := None;
     Sync.connect_rejects := None;
     Sync.select_rejects := None;
     Sync.permission_answer := inr [{[ "can_connect" := VNum 0 ]}];
     Sync.close_rejects := λ _, None |}.
End MoreScenarios.

(** ** Properties of the row stream adapter *)
Module StreamRowsFacts.
Import StreamRows.
Section Facts.
Context {R E : Type}.
Implicit Types (g : gen R E) (r : R) (outs : list (pulled R E)).

Lemma rows_of_app (l1 l2 : list R) :
  rows_of (E:=E) (l1 ++ l2) = rows_of l1 ++ rows_of l2.
Proof. unfold rows_of. apply map_app. Qed.

Lemma inv_init : inv (E:=E) (R:=R) init [] [].
Proof. repeat split. Qed.

Lemma inv_pull g g' o outs recv :
  inv g outs recv → step g Pull = Some (g', o) →
  inv g' (outs ++ emit_opt o) recv.
Proof.
  intros Hinv Hstep. destruct g as [rs rj aw q dn er ps].
  destruct Hinv as [Her Hinv]. simpl in *. subst er.
  unfold step, loop, executor, at_pos in Hstep.
  destruct ps; simpl in *; try discriminate.
  - destruct Hinv as (-> & -> & -> & -> & ->). simplify_eq/=.
    repeat split.
  - destruct Hinv as (-> & d & -> & ->).
    destruct q as [|r q]; [destruct dn|]; simplify_eq/=.
    + repeat split. exists []. rewrite !app_nil_r. auto.
    + rewrite !app_nil_r. repeat split.
    + repeat split. exists (d ++ [r]).
      rewrite rows_of_app, <- app_assoc. auto.
  - destruct Hinv as (-> & Hinv).
    destruct q as [|r q]; [destruct dn|]; simplify_eq/=.
    + repeat split.
      destruct Hinv as [(d & -> & ->)|(-> & _ & _)].
      * exists []. rewrite !app_nil_r. auto.
      * exists [Yielded None]. rewrite <- app_assoc. auto.
    + destruct Hinv as [(d & -> & ->)|(_ & _ & ?)]; [|discriminate].
      rewrite !app_nil_r. repeat split.
    + destruct Hinv as [(d & -> & ->)|(_ & ? & _)]; [|discriminate].
      rewrite andb_false_r in Hstep. simplify_eq/=.
      repeat split. exists (d ++ [r]).
      rewrite rows_of_app, <- app_assoc. auto.
Qed.

Lemma inv_resume g g' o outs recv :
  inv g outs recv → step g Resume = Some (g', o) →
  inv g' (outs ++ emit_opt o) recv.
Proof.
  intros Hinv Hstep. destruct g as [rs rj aw q dn er ps].
  destruct Hinv as [Her Hinv]. simpl in *. subst er.
  destruct ps; simpl in *; try discriminate.
  destruct aw as [|[r|]|e]; inversion Hstep; subst; simpl; [| |done].
  - destruct Hinv as (-> & d & -> & ->). repeat split.
    left. exists (d ++ [r]). rewrite rows_of_app, <- app_assoc. auto.
  - destruct Hinv as (-> & -> & -> & ->). repeat split. right. auto.
Qed.

Lemma inv_row g g' o r outs recv :
  inv g outs recv → done g = false → step g (OnRow r) = Some (g', o) →
  inv g' outs (recv ++ [r]) ∧ o = None ∧ done g' = false.
Proof.
  intros Hinv Hdn Hstep. destruct g as [rs rj aw q dn er ps].
  destruct Hinv as [Her Hinv]. simpl in *. subst er dn.
  destruct ps; simpl in *; try discriminate; inversion Hstep; subst;
    clear Hstep; unfold on_row; simpl.
  - destruct Hinv as (-> & d & -> & ->). simpl. repeat split.
    exists d. rewrite <- app_assoc. auto.
  - destruct aw as [|[r'|]|e]; try done.
    + destruct Hinv as (-> & -> & _ & ->). simpl. repeat split.
      exists recv. auto.
    + destruct Hinv as (-> & d & -> & ->). simpl. repeat split.
      exists d. rewrite <- app_assoc. auto.
    + destruct Hinv as (_ & _ & ? & _). discriminate.
  - destruct Hinv as (-> & Hinv). simpl. repeat split.
    destruct Hinv as [(d & -> & ->)|(_ & _ & ?)]; [|discriminate].
    left. exists d. rewrite <- app_assoc. auto.
  - destruct Hinv as (? & _). discriminate.
Qed.

Lemma inv_done g g' o outs recv :
  inv g outs recv → step g OnDone = Some (g', o) →
  inv g' outs recv ∧ o = None ∧ done g' = true.
Proof.
  intros Hinv Hstep. destruct g as [rs rj aw q dn er ps].
  destruct Hinv as [Her Hinv]. simpl in *. subst er.
  destruct ps; simpl in *; try discriminate; inversion Hstep; subst;
    clear Hstep; unfold on_done; simpl.
  - destruct Hinv as (-> & d & -> & ->). simpl. repeat split. eauto.
  - destruct aw as [|[r'|]|e]; try done.
    + destruct Hinv as (-> & -> & _ & ->). simpl. repeat split.
    + destruct Hinv as (-> & d & -> & ->). simpl. repeat split. eauto.
    + destruct Hinv as (-> & -> & _ & ->). simpl. repeat split.
  - destruct Hinv as (-> & Hinv). simpl. repeat split.
    destruct Hinv as [(d & -> & ->)|(-> & -> & _)]; [left; eauto|right; auto].
  - destruct Hinv as (_ & -> & m & -> & Hm).
    destruct rs; simpl; repeat split; eauto.
Qed.

Lemma pull_progress g outs recv :
  inv g outs recv → done g = true →
  pos g ≠ Completed → pos g ≠ AtAwait →
  ∃ g' o, step g Pull = Some (g', o)
          ∧ remaining g' < remaining g ∧ done g' = true.
Proof.
  intros [Her Hinv] Hdn Hc Ha. destruct g as [rs rj aw q dn er ps].
  simpl in *. subst er dn.
  unfold step, loop, executor, at_pos, remaining.
  destruct ps; simpl in *; try done.
  - destruct Hinv as (_ & _ & _ & ? & _). discriminate.
  - destruct q as [|r q]; simpl; eexists _, _; (split; [reflexivity|]);
      simpl; split; auto; lia.
  - destruct q as [|r q]; simpl; eexists _, _; (split; [reflexivity|]);
      simpl; split; auto; lia.
Qed.

Lemma resume_progress g outs recv :
  inv g outs recv → done g = true → pos g = AtAwait →
  ∃ g' o, step g Resume = Some (g', o)
          ∧ remaining g' < remaining g ∧ done g' = true.
Proof.
  intros [Her Hinv] Hdn Ha. destruct g as [rs rj aw q dn er ps].
  simpl in *. subst er dn ps.
  unfold step, at_pos, remaining. simpl.
  destruct aw as [|v|e]; [|eexists _, _; split; [reflexivity|]|done].
  - destruct Hinv as (_ & _ & ? & _). discriminate.
  - simpl. split; auto; lia.
Qed.

Lemma drain_completes fuel : ∀ g outs recv,
  inv g outs recv → done g = true → remaining g ≤ fuel →
  ∃ g' outs', drain fuel g = (g', outs') ∧ pos g' = Completed
              ∧ inv g' (outs ++ outs') recv.
Proof.
  induction fuel as [|fuel IH]; intros g outs recv Hinv Hdn Hrem.
  - exists g, []. rewrite app_nil_r. split; [done|]. split; [|done].
    unfold remaining in Hrem. destruct (pos g); auto; lia.
  - destruct (decide (pos g = Completed)) as [Hc|Hc].
    { exists g, []. rewrite app_nil_r. cbn [drain]. rewrite Hc. auto. }
    destruct (decide (pos g = AtAwait)) as [Ha|Ha].
    + destruct (resume_progress g outs recv) as (g1 & o & Hs & Hlt & Hd1);
        [done..|].
      destruct (IH g1 (outs ++ emit_opt o) recv)
        as (g2 & outs2 & Hdr & Hc2 & Hi); [by eapply inv_resume|done|lia|].
      exists g2, (emit_opt o ++ outs2). rewrite app_assoc.
      cbn [drain]. rewrite Ha, Hs, Hdr. auto.
    + destruct (pull_progress g outs recv) as (g1 & o & Hs & Hlt & Hd1);
        [done..|].
      destruct (IH g1 (outs ++ emit_opt o) recv)
        as (g2 & outs2 & Hdr & Hc2 & Hi); [by eapply inv_pull|done|lia|].
      exists g2, (emit_opt o ++ outs2). rewrite app_assoc.
      cbn [drain]. rewrite Hs, Hdr. destruct (pos g); done.
Qed.

Lemma step_quiet_done g g' o a :
  is_callback a = false → step g a = Some (g', o) → done g' = done g.
Proof.
  intros Ha Hs. destruct g as [rs rj aw q dn er ps], a; try discriminate;
    unfold step, loop, executor, at_pos in Hs; simpl in *;
    repeat case_match; simplify_eq/=; reflexivity.
Qed.

Lemma inv_quiet g g' o a outs recv :
  is_callback a = false → inv g outs recv → step g a = Some (g', o) →
  inv g' (outs ++ emit_opt o) recv.
Proof.
  destruct a; try discriminate; eauto using inv_pull, inv_resume.
Qed.

Lemma callbacks_cons (a : action R E) sched :
  callbacks (a :: sched)
  = if is_callback a then a :: callbacks sched else callbacks sched.
Proof.
  unfold callbacks. rewrite filter_cons.
  destruct (is_callback a); by case_decide.
Qed.

Lemma run_cons g a sched g2 outs :
  run g (a :: sched) = Some (g2, outs) →
  ∃ g1 o outs1, step g a = Some (g1, o) ∧ run g1 sched = Some (g2, outs1)
                ∧ outs = emit_opt o ++ outs1.
Proof.
  simpl. destruct (step g a) as [[g1 o]|]; [|done].
  destruct (run g1 sched) as [[g2' outs1]|] eqn:Hrun; [|done].
  intros; simplify_eq. by exists g1, o, outs1.
Qed.

(** After [done], with no further callback, the invariant is kept. *)
Lemma run_after_done sched : ∀ g outs recv g' outs',
  inv g outs recv → done g = true → callbacks sched = [] →
  run g sched = Some (g', outs') →
  inv g' (outs ++ outs') recv ∧ done g' = true.
Proof.
  induction sched as [|a sched IH]; intros g outs recv g' outs' Hinv Hdn Hcb Hrun.
  - simpl in Hrun. simplify_eq. by rewrite app_nil_r.
  - apply run_cons in Hrun as (g1 & o & outs1 & Hs & Hrun & ->).
    rewrite callbacks_cons in Hcb.
    destruct (is_callback a) eqn:Ha; [done|].
    rewrite app_assoc. eapply IH; eauto using inv_quiet.
    by rewrite (step_quiet_done _ _ _ _ Ha Hs).
Qed.

(** Rows, then [done]: at the end every row received is accounted for. *)
Lemma run_rows_done sched : ∀ rows g outs recv g' outs',
  inv g outs recv → done g = false →
  callbacks sched = map OnRow rows ++ [OnDone] →
  run g sched = Some (g', outs') →
  inv g' (outs ++ outs') (recv ++ rows) ∧ done g' = true.
Proof.
  induction sched as [|a sched IH];
    intros rows g outs recv g' outs' Hinv Hdn Hcb Hrun.
  - by destruct rows.
  - apply run_cons in Hrun as (g1 & o & outs1 & Hs & Hrun & ->).
    rewrite callbacks_cons in Hcb.
    destruct a as [| |r|e|]; simpl in Hcb.
    + rewrite app_assoc. eapply IH; eauto using inv_pull.
      by rewrite (step_quiet_done g g1 o Pull eq_refl Hs).
    + rewrite app_assoc. eapply IH; eauto using inv_resume.
      by rewrite (step_quiet_done g g1 o Resume eq_refl Hs).
    + destruct rows as [|r' rows]; simplify_eq/=.
      destruct (inv_row _ _ _ _ _ _ Hinv Hdn Hs) as (Hinv1 & -> & Hdn1).
      simpl. replace (recv ++ r' :: rows) with ((recv ++ [r']) ++ rows)
        by (by rewrite <- app_assoc).
      eapply IH; eauto.
    + destruct rows; simplify_eq/=.
    + destruct rows; simplify_eq/=.
      destruct (inv_done _ _ _ _ _ Hinv Hs) as (Hinv1 & -> & Hdn1).
      rewrite app_nil_r. simpl. eapply run_after_done; eauto.
Qed.

(** C1 (as amended): for rows followed by [done], under every schedule of
    pulls, continuations and callbacks, a consumer that iterates to the end
    receives exactly the rows received from the driver, in their order,
    then at most one [undefined] (the end marker resolved into a pending
    pull), then the end of the sequence. *)
Theorem streamRows_delivers_rows
    (sched : list (action R E)) (rows : list R) g outs :
  run init sched = Some (g, outs) →
  callbacks sched = map OnRow rows ++ [OnDone] →
  ∀ fuel, remaining g ≤ fuel →
  ∃ g' outs' m,
    drain fuel g = (g', outs') ∧ pos g' = Completed
    ∧ outs ++ outs' = rows_of rows ++ m ++ [Returned]
    ∧ (m = [] ∨ m = [Yielded None]).
Proof.
  intros Hrun Hcb fuel Hfuel.
  destruct (run_rows_done sched rows init [] [] g outs inv_init eq_refl Hcb Hrun)
    as [Hinv Hdn].
  destruct (drain_completes fuel g _ _ Hinv Hdn Hfuel)
    as (g' & outs' & Hdr & Hpos & [_ Hinv']).
  rewrite Hpos in Hinv'. destruct Hinv' as (_ & _ & m & Hm & Hcase).
  exists g', outs', m. simpl in Hm. auto.
Qed.

(** C6: the schedule on which the driver's error is lost. A pull is
    answered by a row through the awaited promise; the error and [done]
    arrive before the next pull; that pull ends the sequence normally and
    the error, though stored, is never raised. *)
Theorem streamRows_error_not_raised (r : R) (e : E) :
  ∃ g, run init [Pull; OnRow r; Resume; OnError e; OnDone; Pull]
       = Some (g, [Yielded (Some r); Returned])
       ∧ pos g = Completed ∧ error g = Some e.
Proof. eexists. split; [reflexivity|]. split; reflexivity. Qed.

(** Where the error is raised: a pull waiting on the pending promise is
    rejected with it. *)
Lemma error_while_pending g e :
  pos g = AtAwait → awaited g = Pending → rejecter g = true →
  ∃ g1 g2, step g (OnError e) = Some (g1, None)
           ∧ step g1 Resume = Some (g2, Some (Thrown e)).
Proof.
  destruct g as [rs rj aw q dn er ps]; simpl; intros -> -> ->.
  eexists _, _. split; reflexivity.
Qed.

(** A pull that re-enters the loop at its top raises the stored error,
    whatever the queue holds. *)
Lemma error_at_loop_top g e :
  error g = Some e → loop g = (at_pos Completed g, Some (Thrown e)).
Proof. unfold loop. by intros ->. Qed.

End Facts.
End StreamRowsFacts.

(** ** Properties of the pool manager *)
Module PoolFacts.
Import Pool.
Section Facts.
Variable sha256_hex : string → string.
Variable JSON_stringify : gmap string jsval → string.

Local Abbreviation getConfigHash := (getConfigHash sha256_hex JSON_stringify).
Local Abbreviation getPool := (getPool sha256_hex JSON_stringify).
Local Abbreviation run := (run sha256_hex JSON_stringify).

Lemma lookup_snoc {A} (l : list A) (x : A) : (l ++ [x]) !! length l = Some x.
Proof. by apply list_lookup_middle. Qed.

Lemma insert_snoc {A} (l : list A) (x y : A) :
  <[length l := y]> (l ++ [x]) = l ++ [y].
Proof. by rewrite insert_app_r_alt, Nat.sub_diag. Qed.


Lemma reusable_stored (s : state) (h : string) (p : nat) :
  globalPool s = Some p → is_connected s p = true →
  currentConfigHash s = Some h → reusable s h = Some p.
Proof.
  intros Hp Hc Hh. unfold reusable.
  by rewrite Hp, Hc, bool_decide_eq_true_2.
Qed.

(** C4: with a stored, connected pool whose hash is that of the
    configuration, [getPool] answers with that pool and changes nothing:
    no pool is closed or constructed, the three variables stay as they
    are. *)
Theorem getPool_reuses_stored_pool (s : state)
    (appConfig : gmap string jsval) (p : nat) :
  globalPool s = Some p →
  is_connected s p = true →
  currentConfigHash s = Some (getConfigHash appConfig) →
  getPool s appConfig = (s, Now p).
Proof.
  intros Hp Hc Hh. unfold Pool.getPool.
  by rewrite (reusable_stored s _ p).
Qed.

(** Consequently any number of calls with that configuration share the
    one pool. *)
Lemma getPool_reuse_repeats (s : state) (appConfig : gmap string jsval)
    (p n : nat) :
  globalPool s = Some p →
  is_connected s p = true →
  currentConfigHash s = Some (getConfigHash appConfig) →
  run s (replicate n (Call appConfig)) = Some (s, replicate n (Now p)).
Proof.
  intros Hp Hc Hh. induction n as [|n IH]; [done|].
  simpl. unfold Pool.getPool. rewrite (reusable_stored s _ p) by done.
  simpl. by rewrite IH.
Qed.

(** Where a call does wait: the promise variable is set and the stored
    hash is the call's hash. Then the call starts nothing (no pool is
    constructed, connected or closed, the variables are unchanged) and is
    tied to the stored promise, unless a connected pool is stored, which it
    receives at once. *)
Lemma getPool_joins_initialization (s : state)
    (appConfig : gmap string jsval) (i : nat) :
  poolInitializationPromise s = Some i →
  currentConfigHash s = Some (getConfigHash appConfig) →
  getPool s appConfig
  = (s, match globalPool s with
        | Some p => if is_connected s p then Now p else Later i
        | None => Later i
        end).
Proof.
  intros Hi Hh. unfold Pool.getPool, reusable, in_progress.
  rewrite Hi, bool_decide_eq_true_2 by done.
  destruct (globalPool s) as [p|]; [|done].
  by destruct (is_connected s p).
Qed.

(** The first two calls ever made each start an initialisation, whatever
    their configurations (the stored hash is still unset when the second
    one arrives). *)
Lemma first_calls_each_initialize (c1 c2 : gmap string jsval) :
  ∃ s, run init [Call c1; Call c2] = Some (s, [Later 0; Later 1])
       ∧ running s = [Connecting 0 (getConfigHash c1);
                      Connecting 1 (getConfigHash c2)]
       ∧ trace s = [Construct 0; Connect 0; Construct 1; Connect 1].
Proof. eexists. split; [reflexivity|]. split; reflexivity. Qed.

(** A call that neither gets the stored pool nor waits starts an
    initialisation: it makes a driver call at once and stores the promise
    of the new initialisation. *)
Lemma initialize_starts (s : state) (appConfig : gmap string jsval)
    (configHash : string) :
  ∃ s' st' calls,
    initialize appConfig configHash s = (s', Later (length (inits s)))
    ∧ inits s' = inits s ++ [st'] ∧ unsettled st' = true
    ∧ poolInitializationPromise s' = Some (length (inits s))
    ∧ trace s' = trace s ++ calls ∧ calls ≠ [].
Proof.
  unfold initialize, start_initialization, create_and_connect.
  destruct (globalPool s) as [old|]; [case_bool_decide|]; simpl;
    eexists _, _, _; split_and!; done.
Qed.

(** C2: the calls of [getPool] are not serialised. Take any state in which
    an initialisation [i] is under way, and a call whose configuration hash
    differs from the stored hash, or that finds the promise variable
    cleared and no pool stored. The call does not wait for [i]: it starts
    an initialisation of its own, makes a driver call at once (the close of
    the stored pool, or the construction and connection of a new pool) and
    stores its own promise, while [i] goes on: two initialisations run at
    the same time. The stored hash is set only when a connect succeeds, so
    on a fresh manager this is what happens to a second call with the
    very configuration of the first. *)
Theorem getPool_starts_second_initialization (s : state)
    (appConfig : gmap string jsval) (i : nat) (st : initialization) :
  inits s !! i = Some st → unsettled st = true →
  currentConfigHash s ≠ Some (getConfigHash appConfig)
  ∨ (poolInitializationPromise s = None ∧ globalPool s = None) →
  ∃ s' st' calls,
    getPool s appConfig = (s', Later (length (inits s)))
    ∧ i ≠ length (inits s)
    ∧ inits s' = inits s ++ [st'] ∧ unsettled st' = true
    ∧ inits s' !! i = Some st
    ∧ poolInitializationPromise s' = Some (length (inits s))
    ∧ trace s' = trace s ++ calls ∧ calls ≠ []
    ∧ 2 ≤ length (running s').
Proof.
  intros Hi Hrun Hcase.
  assert (reusable s (getConfigHash appConfig) = None) as Hre.
  { unfold reusable. destruct Hcase as [Hh|[_ ->]]; [|done].
    destruct (globalPool s); [|done]. by rewrite bool_decide_eq_false_2. }
  assert (in_progress s (getConfigHash appConfig) = None) as Hin.
  { unfold in_progress. destruct Hcase as [Hh|[-> _]]; [|done].
    destruct (poolInitializationPromise s); [|done].
    by rewrite bool_decide_eq_false_2. }
  destruct (initialize_starts s appConfig (getConfigHash appConfig))
    as (s' & st' & calls & Hinit & Hinits & Hst' & Hpr & Htr & Hcalls).
  exists s', st', calls. unfold Pool.getPool. rewrite Hre, Hin.
  pose proof (lookup_lt_Some _ _ _ Hi) as Hlt.
  split_and!; try done.
  - lia.
  - rewrite Hinits. by apply lookup_app_l_Some.
  - unfold running. rewrite Hinits, filter_app, length_app.
    assert (st ∈ filter (λ st0, unsettled st0 = true) (inits s)) as Hst.
    { apply list_elem_of_filter. split; [done|].
      by apply (list_elem_of_lookup_2 _ i). }
    destruct (filter _ (inits s)) as [|x l]; [by apply elem_of_nil in Hst|].
    rewrite filter_cons_True by done. simpl. lia.
Qed.


End Facts.
End PoolFacts.

(** ** Properties of the operation blocks *)
Module BlocksFacts.
Import Blocks.

Lemma serializeRow_fmap (r : row) :
  serializeRow r = serializeValue <$> delete "__proto__" r.
Proof.
  unfold serializeRow.
  apply (map_fold_weak_ind
           (λ acc m, acc = serializeValue <$> delete "__proto__" m)).
  - by rewrite delete_empty, fmap_empty.
  - intros key value m acc Hm ->. case_bool_decide as Hkey.
    + subst key. by rewrite delete_insert_eq.
    + by rewrite delete_insert_ne, fmap_insert.
Qed.

Lemma serializeValue_not_bigint (value : jsval) :
  is_bigint (serializeValue value) = false.
Proof. by destruct value. Qed.

Lemma serializeValue_other (value : jsval) :
  is_bigint value = false → serializeValue value = value.
Proof. by destruct value. Qed.



Section Handlers.
Variable database :
  list effect → string → list (string * jsval) → string + query_result.
Variable input_error : string → jsval → option string.

Local Abbreviation first_refused := (first_refused input_error).
Local Abbreviation accepted := (accepted input_error).
Local Abbreviation executeQuery := (executeQuery database input_error).
Local Abbreviation executeCommand := (executeCommand database input_error).
Local Abbreviation streamQuery := (streamQuery input_error).

(** The loop over the parameters binds all of them, in order, or throws
    the error of the first one the driver refuses; it does nothing else. *)
Lemma bind_entries_run entries rq log :
  bind_entries input_error entries rq log
  = match first_refused entries with
    | Some e => (inl e, log)
    | None => (inr {| inputs := inputs rq ++ entries |}, log)
    end.
Proof.
  revert rq. induction entries as [|[name value] entries IH]; intros rq.
  - simpl. destruct rq. by rewrite app_nil_r.
  - simpl. unfold bind, request_input.
    destruct (input_error name value) as [e|]; [done|]. simpl.
    rewrite IH. destruct (first_refused entries); [done|].
    simpl. by rewrite <- app_assoc.
Qed.

Lemma bind_parameters_run parameters rq log :
  bind_parameters input_error parameters rq log
  = match first_refused (default [] parameters) with
    | Some e => (inl e, log)
    | None => (inr {| inputs := inputs rq ++ default [] parameters |}, log)
    end.
Proof. apply bind_entries_run. Qed.

(** What the query block does, for every outcome of the pool, of the
    binding of the parameters and of the query. *)
Lemma executeQuery_run rejected query parameters log :
  executeQuery rejected query parameters log =
  match rejected with
  | Some e => (inl e, log)
  | None =>
      let params := default [] parameters in
      match first_refused params with
      | Some e => (inl e, log ++ [RequestCreated])
      | None =>
          match database (log ++ [RequestCreated]) query params with
          | inl e => (inl e, log ++ [RequestCreated; QuerySent query params])
          | inr result =>
              (inr tt,
               log ++ [RequestCreated; QuerySent query params;
                       Emitted (QueryResult
                                  (map serializeRow (recordset result)))])
          end
      end
  end.
Proof.
  unfold Blocks.executeQuery, bind, acquire_pool, pool_request, request_query,
    emit.
  destruct rejected as [e|]; [done|]. simpl.
  rewrite bind_parameters_run.
  destruct (Blocks.first_refused _ _); [done|]. simpl.
  destruct (database _ _ _); simpl; by rewrite <- !app_assoc.
Qed.

Lemma executeCommand_run rejected command parameters log :
  executeCommand rejected command parameters log =
  match rejected with
  | Some e => (inl e, log)
  | None =>
      let params := default [] parameters in
      match first_refused params with
      | Some e => (inl e, log ++ [RequestCreated])
      | None =>
          match database (log ++ [RequestCreated]) command params with
          | inl e => (inl e, log ++ [RequestCreated; QuerySent command params])
          | inr result =>
              (inr tt,
               log ++ [RequestCreated; QuerySent command params;
                       Emitted (CommandResult (totalRowsAffected result))])
          end
      end
  end.
Proof.
  unfold Blocks.executeCommand, bind, acquire_pool, pool_request,
    request_query, emit.
  destruct rejected as [e|]; [done|]. simpl.
  rewrite bind_parameters_run.
  destruct (Blocks.first_refused _ _); [done|]. simpl.
  destruct (database _ _ _); simpl; by rewrite <- !app_assoc.
Qed.

(** C8 (as amended): with no rows, the bulk insert creates no request and
    sends no statement, whatever [getPool] does. When [getPool] resolves it
    emits the one event [{ rowCount: 0, table }] and returns; when
    [getPool] rejects it rethrows the error and emits nothing. *)
Theorem bulkInsert_no_rows (rejected : option string) (table : string)
    (columns : list string) (log : list effect) :
  bulkInsert database rejected table columns [] log
  = match rejected with
    | Some e => (inl e, log)
    | None => (inr tt, log ++ [Emitted (InsertResult 0 table)])
    end
  ∧ emitted (snd (bulkInsert database rejected table columns [] []))
    = match rejected with
      | Some _ => []
      | None => [InsertResult 0 table]
      end
  ∧ queries (snd (bulkInsert database rejected table columns [] [])) = []
  ∧ RequestCreated ∉ snd (bulkInsert database rejected table columns [] []).
Proof.
  unfold bulkInsert, bind, acquire_pool, ret, throw, emit.
  destruct rejected as [e|]; simpl.
  - split_and!; try done. apply not_elem_of_nil.
  - split_and!; try done.
    intros Hin. apply list_elem_of_singleton in Hin. discriminate.
Qed.

Lemma bind_cell_fold (r : list jsval) : ∀ rq i placeholders,
  fold_left bind_cell r (rq, i, placeholders)
  = ({| inputs := inputs rq
                  ++ zip_with (λ j value, ("p" +:+ pretty j, serializeValue value))
                       (seq i (length r)) r |},
     i + length r,
     placeholders ++ map (λ j, "@p" +:+ pretty j) (seq i (length r))).
Proof.
  induction r as [|value r IH]; intros rq i placeholders; simpl.
  - destruct rq. by rewrite !app_nil_r, Nat.add_0_r.
  - rewrite IH. simpl. rewrite <- !app_assoc. simpl.
    by rewrite Nat.add_succ_r.
Qed.

Lemma bind_row_fold (rows : list (list jsval)) : ∀ rq i placeholders,
  fold_left bind_row rows (rq, i, placeholders)
  = ({| inputs := inputs rq
                  ++ zip_with (λ j value, ("p" +:+ pretty j, serializeValue value))
                       (seq i (length (cells rows))) (cells rows) |},
     i + length (cells rows),
     placeholders ++ claimed_groups i rows).
Proof.
  induction rows as [|r rows IH]; intros rq i placeholders.
  - destruct rq. simpl. by rewrite !app_nil_r, Nat.add_0_r.
  - cbn [fold_left bind_row]. rewrite bind_cell_fold. rewrite IH.
    unfold cells. simpl. rewrite length_app, seq_app.
    rewrite zip_with_app by (by rewrite length_seq).
    by rewrite <- !app_assoc, Nat.add_assoc.
Qed.

Lemma sanitizeTableName_claimed (table : string) :
  sanitizeTableName table = claimed_table table.
Proof. reflexivity. Qed.

Lemma fold_left_sum (l : list Z) : ∀ acc : Z,
  fold_left (λ sum count, (sum + count)%Z) l acc = (acc + foldr Z.add 0 l)%Z.
Proof.
  induction l as [|x l IH]; intros acc; simpl; [lia|]. rewrite IH. lia.
Qed.



Lemma emitted_map (evs : list event) : emitted (map Emitted evs) = evs.
Proof.
  induction evs as [|ev evs IH]; [done|].
  change (ev :: emitted (map Emitted evs) = ev :: evs). by rewrite IH.
Qed.

Lemma driver_calls_app (l1 l2 : list effect) :
  driver_calls (l1 ++ l2) = driver_calls l1 ++ driver_calls l2.
Proof. unfold driver_calls. apply filter_app. Qed.

Lemma driver_calls_emitted (evs : list event) :
  driver_calls (map Emitted evs) = [].
Proof. induction evs as [|ev evs IH]; [done|]. simpl. by rewrite <- IH. Qed.

(** The loop over the stream only emits batches, and every row it emits or
    still holds is the serialised form of a row it pulled. *)
Lemma for_await_rows (P : row → Prop) batchSize pulls :
  (∀ r0, StreamRows.Yielded (Some r0) ∈ pulls → P (serializeRow r0)) →
  ∀ batchNumber currentBatch log,
    Forall P currentBatch →
    ∃ evs,
      snd (for_await batchSize pulls batchNumber currentBatch log)
      = log ++ map Emitted evs
      ∧ Forall (λ ev, Forall P (event_rows ev)) evs
      ∧ ∀ n rest,
          fst (for_await batchSize pulls batchNumber currentBatch log)
          = inr (n, rest) → Forall P rest.
Proof.
  induction pulls as [|pull pulls IH];
    intros Hpulls batchNumber currentBatch log Hcur.
  - exists []. simpl. rewrite app_nil_r. repeat split; [constructor|].
    by intros n rest [= <- <-].
  - destruct pull as [[r0|]| |e]; simpl.
    + assert (Forall P (currentBatch ++ [serializeRow r0])) as Hcur'.
      { apply Forall_app. split; [done|].
        constructor; [|constructor]. apply Hpulls. left. }
      assert (∀ r, StreamRows.Yielded (Some r) ∈ pulls → P (serializeRow r))
        as Hpulls' by (intros r Hr; apply Hpulls; by right).
      case_bool_decide.
      * unfold bind, emit. simpl.
        destruct (IH Hpulls' (S batchNumber) [] (log ++
          [Emitted (Batch batchNumber (currentBatch ++ [serializeRow r0])
                      (length (currentBatch ++ [serializeRow r0])) true)]))
          as (evs & Hlog & Hevs & Hrest); [constructor|].
        eexists (_ :: evs). rewrite Hlog. split.
        { simpl. by rewrite <- app_assoc. }
        split; [|done]. constructor; [done|done].
      * apply IH; done.
    + exists []. rewrite app_nil_r. repeat split; [constructor|].
      by intros n rest [= <- <-].
    + exists []. rewrite app_nil_r. repeat split; [constructor|].
      by intros n rest [= <- <-].
    + exists []. rewrite app_nil_r. repeat split; [constructor|]. done.
Qed.

(** What the streaming block does around its loop. *)
Lemma streamQuery_run rejected query parameters configBatchSize pulls log :
  streamQuery rejected query parameters configBatchSize pulls log =
  match rejected with
  | Some e => (inl e, log)
  | None =>
      let params := default [] parameters in
      match first_refused params with
      | Some e => (inl e, log ++ [RequestCreated])
      | None =>
          match for_await (batch_size configBatchSize) pulls 0 []
                  (log ++ [RequestCreated; QuerySent query params]) with
          | (inl e, log') => (inl e, log')
          | (inr (batchNumber, currentBatch), log') =>
              if bool_decide (0 < length currentBatch)
              then (inr tt,
                    log' ++ [Emitted (Batch batchNumber currentBatch
                                        (length currentBatch) false)])
              else (inr tt, log')
          end
      end
  end.
Proof.
  unfold Blocks.streamQuery, bind, acquire_pool, pool_request, stream_started.
  destruct rejected as [e|]; [done|]. simpl.
  rewrite bind_parameters_run.
  destruct (Blocks.first_refused _ _); [done|]. simpl.
  rewrite <- app_assoc. simpl.
  destruct (for_await _ _ _ _ _) as [[e|[n rest]] log']; [done|].
  unfold emit_remaining, emit, ret. by case_bool_decide.
Qed.


(** What a handling of the streaming block that returns has asked of the
    driver: one request, one statement. *)
Lemma streamQuery_calls rejected query parameters configBatchSize pulls log :
  streamQuery rejected query parameters configBatchSize pulls []
  = (inr tt, log) →
  driver_calls log = [RequestCreated; QuerySent query (default [] parameters)].
Proof.
  rewrite streamQuery_run. destruct rejected as [e|]; [done|]. simpl.
  destruct (Blocks.first_refused _ _); [done|].
  destruct (for_await_rows (λ _, True) (batch_size configBatchSize) pulls
              (λ _ _, I) 0 []
              [RequestCreated; QuerySent query (default [] parameters)])
    as (evs & Hlog & _); [constructor|].
  destruct (for_await _ _ _ _ _) as [[e|[n rest]] log']; [done|].
  simpl in Hlog. subst log'.
  assert (∀ l, driver_calls (RequestCreated
                             :: QuerySent query (default [] parameters) :: l)
               = RequestCreated :: QuerySent query (default [] parameters)
                 :: driver_calls l) as Hkeep by done.
  case_bool_decide; intros [= <-].
  - change [Emitted (Batch n rest (length rest) false)]
      with (map Emitted [Batch n rest (length rest) false]).
    by rewrite Hkeep, <- map_app, driver_calls_emitted.
  - by rewrite Hkeep, driver_calls_emitted.
Qed.

(** What the introspection block does when every query succeeds and the
    table is found. *)
Lemma getTableInfo_queries rejected schemaName table log :
  fst (getTableInfo database rejected schemaName table []) = inr tt →
  snd (getTableInfo database rejected schemaName table []) = log →
  ∃ ev,
    let params := [("p1", VStr (BlocksMore.actualSchema schemaName));
                   ("p2", VStr table)] in
    log = [RequestCreated; QuerySent tableQuery params;
           RequestCreated; QuerySent columnsQuery params;
           RequestCreated; QuerySent constraintsQuery params;
           RequestCreated; QuerySent indexesQuery params;
           Emitted ev].
Proof.
  unfold getTableInfo, introspect, bind, acquire_pool, pool_request,
    request_query, emit, throw, ret.
  fold (BlocksMore.actualSchema schemaName).
  destruct rejected as [e|]; [done|]. simpl.
  destruct (database _ _ _) as [e|tableResult]; [done|]. simpl.
  destruct (recordset tableResult) as [|tableInfo others]; [done|]. simpl.
  destruct (database _ _ _) as [e|columnsResult]; [done|]. simpl.
  destruct (database _ _ _) as [e|constraintsResult]; [done|]. simpl.
  destruct (database _ _ _) as [e|indexesResult]; [done|]. simpl.
  intros _ <-. by eexists.
Qed.

(** What the bulk insert asks of the driver when there are rows. *)
Lemma bulkInsert_calls (table : string) (columns : list string)
    (rows : list (list jsval)) :
  rows ≠ [] →
  driver_calls (snd (bulkInsert database None table columns rows []))
  = [RequestCreated;
     QuerySent (claimed_statement table columns rows) (claimed_bindings rows)].
Proof.
  intros Hrows. unfold bulkInsert, bind, acquire_pool, pool_request. simpl.
  rewrite bool_decide_eq_false_2 by (by destruct rows).
  rewrite bind_row_fold. simpl.
  unfold request_query, emit. simpl. rewrite sanitizeTableName_claimed.
  fold (claimed_statement table columns rows). fold (claimed_bindings rows).
  by destruct (database _ _ _).
Qed.

(** C7 (as amended): what one successful handling asks of the driver. The
    query, command and streaming blocks create one request and send one
    statement on it, the text they were given, with the user's parameters
    bound. The bulk insert does nothing of the kind when there is no row;
    otherwise it creates one request and sends one statement, the [INSERT]
    with one parameter per cell. The table introspection creates four
    requests and sends one statement on each: the table, columns,
    constraints and indexes queries, in this order, each with the schema
    and the table name bound. *)
Theorem queries_per_handling :
  (∀ rejected query parameters log,
     executeQuery rejected query parameters [] = (inr tt, log) →
     driver_calls log
     = [RequestCreated; QuerySent query (default [] parameters)])
  ∧ (∀ rejected command parameters log,
     executeCommand rejected command parameters [] = (inr tt, log) →
     driver_calls log
     = [RequestCreated; QuerySent command (default [] parameters)])
  ∧ (∀ rejected query parameters configBatchSize pulls log,
     streamQuery rejected query parameters configBatchSize pulls []
     = (inr tt, log) →
     driver_calls log
     = [RequestCreated; QuerySent query (default [] parameters)])
  ∧ (∀ rejected table columns rows log,
     bulkInsert database rejected table columns rows [] = (inr tt, log) →
     driver_calls log
     = match rows with
       | [] => []
       | _ => [RequestCreated;
               QuerySent (claimed_statement table columns rows)
                 (claimed_bindings rows)]
       end)
  ∧ (∀ rejected schemaName table log,
     getTableInfo database rejected schemaName table [] = (inr tt, log) →
     let params := [("p1", VStr (BlocksMore.actualSchema schemaName));
                    ("p2", VStr table)] in
     driver_calls log
     = [RequestCreated; QuerySent tableQuery params;
        RequestCreated; QuerySent columnsQuery params;
        RequestCreated; QuerySent constraintsQuery params;
        RequestCreated; QuerySent indexesQuery params]).
Proof.
  split_and!.
  - intros rejected query parameters log. rewrite executeQuery_run.
    destruct rejected; [done|]. simpl.
    destruct (Blocks.first_refused _ _); [done|].
    destruct (database _ _ _); [done|]. by intros [= <-].
  - intros rejected command parameters log. rewrite executeCommand_run.
    destruct rejected; [done|]. simpl.
    destruct (Blocks.first_refused _ _); [done|].
    destruct (database _ _ _); [done|]. by intros [= <-].
  - apply streamQuery_calls.
  - intros rejected table columns rows log.
    destruct rejected as [e|]; [done|].
    destruct rows as [|r rows]; [by intros [= <-]|].
    intros Hrun.
    by rewrite <- (bulkInsert_calls table columns (r :: rows)), Hrun.
  - intros rejected schemaName table log Hrun.
    destruct (getTableInfo_queries rejected schemaName table log)
      as (ev & ->); by rewrite ?Hrun.
Qed.

(** *** Batches *)

Lemma chunks_upto_fuel {A} (b : nat) : 0 < b → ∀ f1 f2 (l : list A),
  length l ≤ f1 → length l ≤ f2 → chunks_upto f1 b l = chunks_upto f2 b l.
Proof.
  intros Hb. induction f1 as [|f1 IH]; intros f2 l H1 H2.
  - destruct l; [|simpl in H1; lia]. by destruct f2.
  - destruct l as [|x l]; [by destruct f2|].
    destruct f2 as [|f2]; [simpl in H2; lia|].
    cbn [chunks_upto]. f_equal. apply IH.
    + rewrite length_drop. simpl in *. lia.
    + rewrite length_drop. simpl in *. lia.
Qed.

Lemma chunks_nil {A} (b : nat) : chunks b (@nil A) = [].
Proof. reflexivity. Qed.

Lemma chunks_step {A} (b : nat) (l : list A) :
  0 < b → l ≠ [] → chunks b l = take b l :: chunks b (drop b l).
Proof.
  intros Hb Hl. unfold chunks. destruct l as [|x l]; [done|].
  cbn [length chunks_upto]. f_equal.
  apply chunks_upto_fuel; [done| |done].
  rewrite length_drop. simpl. lia.
Qed.

Lemma chunks_full {A} (b : nat) (piece l : list A) :
  0 < b → length piece = b → chunks b (piece ++ l) = piece :: chunks b l.
Proof.
  intros Hb Hp. rewrite chunks_step; [|done|by destruct piece; simpl in *; [lia|]].
  by rewrite take_app_length', drop_app_length'.
Qed.

Lemma chunks_short {A} (b : nat) (l : list A) :
  l ≠ [] → length l < b → chunks b l = [l].
Proof.
  intros Hl Hlt. rewrite chunks_step by (done || lia).
  rewrite take_ge, drop_ge by lia. by rewrite chunks_nil.
Qed.

Lemma chunks_concat {A} (b : nat) : 0 < b → ∀ n (l : list A),
  length l ≤ n → concat (chunks b l) = l.
Proof.
  intros Hb. induction n as [|n IH]; intros l Hn.
  - by destruct l; [|simpl in Hn; lia].
  - destruct l as [|x l]; [done|].
    rewrite chunks_step by done. simpl concat.
    rewrite IH; [apply take_drop|].
    rewrite length_drop. simpl in *. lia.
Qed.



(** When [b] divides the number of rows, every piece is full. *)
Lemma chunks_exact {A} (b : nat) : 0 < b → ∀ k (l : list A),
  length l = k * b →
  length (chunks b l) = k ∧ Forall (λ piece, length piece = b) (chunks b l).
Proof.
  intros Hb. induction k as [|k IH]; intros l Hl.
  - destruct l; [|done]. by split; [|constructor].
  - rewrite <- (take_drop b l).
    assert (length (take b l) = b) as Ht by (rewrite length_take; lia).
    rewrite chunks_full by done.
    destruct (IH (drop b l)) as [Hlen Hall]; [rewrite length_drop; lia|].
    split; [simpl; by rewrite Hlen|by constructor].
Qed.

Lemma numbered_cons (b first : nat) piece pieces :
  numbered b first (piece :: pieces)
  = Batch first piece (length piece) (bool_decide (length piece = b))
    :: numbered b (S first) pieces.
Proof.
  unfold numbered. simpl. rewrite Nat.add_0_r. f_equal.
  apply imap_ext. intros i x _. simpl. by rewrite Nat.add_succ_r.
Qed.

Lemma numbered_snoc (b first : nat) pieces piece :
  numbered b first (pieces ++ [piece])
  = numbered b first pieces
    ++ [Batch (first + length pieces) piece (length piece)
          (bool_decide (length piece = b))].
Proof. unfold numbered. rewrite imap_app. simpl. by rewrite Nat.add_0_r. Qed.

(** The loop and the emission after it, for a batch size [b ≥ 1] and a
    stream that ends without error: the rows, serialised, are cut into
    pieces of [b]. *)
Lemma batches_spec (b : nat) (marker : bool) : 0 < b →
  ∀ (rows : list row) batchNumber currentBatch log,
    length currentBatch < b →
    bind (for_await (Z.of_nat b) (stream_of rows marker)
            batchNumber currentBatch) emit_remaining log
    = (inr tt,
       log ++ map Emitted
                (numbered b batchNumber
                   (chunks b (currentBatch ++ map serializeRow rows)))).
Proof.
  intros Hb. induction rows as [|r rows IH];
    intros batchNumber currentBatch log Hcur.
  - simpl map. rewrite app_nil_r.
    assert (for_await (Z.of_nat b) (stream_of [] marker) batchNumber
              currentBatch log = (inr (batchNumber, currentBatch), log)) as Hend
      by (by destruct marker).
    unfold bind. rewrite Hend. unfold emit_remaining, emit, ret.
    destruct currentBatch as [|x currentBatch].
    + simpl. by rewrite app_nil_r.
    + rewrite bool_decide_eq_true_2 by (simpl; lia).
      rewrite chunks_short by done. rewrite numbered_cons. simpl map.
      by rewrite bool_decide_eq_false_2 by (simpl in Hcur; lia).
  - change (stream_of (r :: rows) marker)
      with (StreamRows.Yielded (Some r) :: stream_of rows marker).
    cbn [for_await]. case_bool_decide as Hfull.
    + assert (length (currentBatch ++ [serializeRow r]) = b) as Hlen
        by (rewrite length_app in *; simpl in *; lia).
      replace (currentBatch ++ map serializeRow (r :: rows))
        with ((currentBatch ++ [serializeRow r]) ++ map serializeRow rows)
        by (by rewrite <- app_assoc).
      rewrite chunks_full, numbered_cons by done.
      rewrite bool_decide_eq_true_2 by done.
      specialize (IH (S batchNumber) []
        (log ++ [Emitted (Batch batchNumber (currentBatch ++ [serializeRow r])
                            (length (currentBatch ++ [serializeRow r])) true)])).
      unfold bind at 1 2. unfold emit at 1. unfold bind in IH.
      rewrite IH by (simpl; lia). simpl. by rewrite <- app_assoc.
    + replace (currentBatch ++ map serializeRow (r :: rows))
        with ((currentBatch ++ [serializeRow r]) ++ map serializeRow rows)
        by (by rewrite <- app_assoc).
      apply IH. rewrite length_app in *. simpl in *. lia.
Qed.

(** What the streaming block does for a batch size [b ≥ 1] (100 when unset
    or 0) once the driver has accepted the parameters: it emits the
    serialised rows in pieces of [b], numbered from 0, [hasMore] set
    exactly on the pieces of full size. *)
Lemma streamQuery_pieces query parameters configBatchSize (b : nat)
    (rows : list row) (marker : bool) (log : list effect) :
  0 < b → batch_size configBatchSize = Z.of_nat b →
  accepted parameters →
  streamQuery None query parameters configBatchSize (stream_of rows marker) log
  = (inr tt,
     log ++ [RequestCreated; QuerySent query (default [] parameters)]
     ++ map Emitted (numbered b 0 (chunks b (map serializeRow rows)))).
Proof.
  intros Hb Hsize Hacc. unfold Blocks.streamQuery, acquire_pool, pool_request,
    stream_started.
  rewrite Hsize. unfold bind at 1 2 3. simpl.
  rewrite bind_parameters_run, Hacc. unfold bind at 1 2. simpl.
  pose proof (batches_spec b marker Hb rows 0 []
                ((log ++ [RequestCreated])
                 ++ [QuerySent query (default [] parameters)])
                ltac:(simpl; lia)) as Hspec.
  unfold bind in Hspec. rewrite Hspec.
  simpl. by rewrite <- !app_assoc.
Qed.

Lemma streamQuery_batches query parameters (b : nat) (rows : list row)
    (marker : bool) (log : list effect) :
  0 < b → accepted parameters →
  streamQuery None query parameters (Some (Z.of_nat b))
    (stream_of rows marker) log
  = (inr tt,
     log ++ [RequestCreated; QuerySent query (default [] parameters)]
     ++ map Emitted (numbered b 0 (chunks b (map serializeRow rows)))).
Proof.
  intros Hb Hacc. apply streamQuery_pieces; [done| |done].
  unfold batch_size. by rewrite bool_decide_eq_false_2 by lia.
Qed.

Lemma streamQuery_emitted query parameters configBatchSize (b : nat)
    (rows : list row) (marker : bool) :
  0 < b → batch_size configBatchSize = Z.of_nat b →
  accepted parameters →
  emitted (snd (streamQuery None query parameters configBatchSize
                  (stream_of rows marker) []))
  = numbered b 0 (chunks b (map serializeRow rows)).
Proof.
  intros Hb Hsize Hacc. rewrite (streamQuery_pieces _ _ _ b) by done. simpl.
  apply emitted_map.
Qed.

Lemma numbered_rows b first pieces :
  concat (map event_rows (numbered b first pieces)) = concat pieces.
Proof.
  revert first. induction pieces as [|piece pieces IH]; intros first; [done|].
  rewrite numbered_cons. simpl. by rewrite IH.
Qed.

(** The loop with a batch size of at most 1: every row fills a batch. *)
Lemma for_await_single (B : Z) (marker : bool) : (B ≤ 1)%Z →
  ∀ (rows : list row) batchNumber log,
    for_await B (stream_of rows marker) batchNumber [] log
    = (inr (batchNumber + length rows, []),
       log ++ map Emitted
                (imap (λ i r, Batch (batchNumber + i) [serializeRow r] 1 true)
                   rows)).
Proof.
  intros HB. induction rows as [|r rows IH]; intros batchNumber log.
  - rewrite Nat.add_0_r, app_nil_r. by destruct marker.
  - change (stream_of (r :: rows) marker)
      with (StreamRows.Yielded (Some r) :: stream_of rows marker).
    cbn [for_await]. rewrite bool_decide_eq_true_2 by (simpl; lia).
    unfold bind, emit. rewrite IH. simpl.
    rewrite Nat.add_0_r, <- app_assoc, <- Nat.add_succ_comm. simpl.
    do 4 f_equal. apply imap_ext. intros i x _. simpl.
    by rewrite Nat.add_succ_r.
Qed.




Lemma batch_size_default :
  batch_size None = 100%Z ∧ batch_size (Some 0%Z) = 100%Z.
Proof. split; reflexivity. Qed.

(** C5: where the batches end with a full one. When the batch size [b ≥ 1]
    divides the number [k * b > 0] of rows, the block emits [k] batches and
    the last of them, number [k - 1] with [b] rows, still says
    [hasMore: true]; no event with [hasMore: false] follows. (The driver
    accepts the user's parameters; otherwise no stream is started.) *)
Theorem streamQuery_last_batch_hasMore query parameters (b k : nat)
    (rows : list row) (marker : bool) :
  0 < b → 0 < k → length rows = k * b →
  accepted parameters →
  ∃ evs last_rows,
    streamQuery None query parameters (Some (Z.of_nat b))
      (stream_of rows marker) []
    = (inr tt,
       [RequestCreated; QuerySent query (default [] parameters)]
       ++ map Emitted (evs ++ [Batch (k - 1) last_rows b true]))
    ∧ length evs = k - 1
    ∧ Forall (λ ev, hasMore_of ev = Some true) evs.
Proof.
  intros Hb Hk Hrows Hacc. rewrite streamQuery_batches by done. simpl app.
  destruct (chunks_exact b Hb k (map serializeRow rows)) as [Hlen Hall];
    [by rewrite length_map|].
  destruct (chunks b (map serializeRow rows)) as [|piece pieces _]
    using rev_ind; [simpl in Hlen; lia|].
  rewrite length_app in Hlen. simpl in Hlen.
  apply Forall_app in Hall as [Hall Hlast].
  apply Forall_cons in Hlast as [Hlast _].
  rewrite numbered_snoc, Hlast, bool_decide_eq_true_2 by done.
  replace (0 + length pieces) with (k - 1) by lia.
  exists (numbered b 0 pieces), piece. split; [done|].
  split; [unfold numbered; rewrite length_imap; lia|].
  unfold numbered. apply Forall_lookup. intros i ev Hev.
  apply list_lookup_imap_Some in Hev as (p & Hp & ->). simpl.
  by rewrite (proj1 (Forall_lookup _ _) Hall i p Hp), bool_decide_eq_true_2.
Qed.


End Handlers.
End BlocksFacts.

(** ** The row stream adapter under arbitrary schedules: properties *)
Module StreamTraceFacts.
Import StreamRows StreamTrace.
Section Facts.
Context {R E : Type}.
Implicit Types (g : gen R E) (outs : list (pulled R E))
  (hist sched : list (action R E)).

Lemma received_app hist sched :
  received (hist ++ sched) = received hist ++ received sched.
Proof. apply omap_app. Qed.

Lemma yielded_rows_app outs outs' :
  yielded_rows (outs ++ outs') = yielded_rows outs ++ yielded_rows outs'.
Proof. apply omap_app. Qed.

Lemma safe_init : safe (R:=R) (E:=E) [] init [].
Proof.
  unfold safe, shape. simpl. repeat split; try done; intros; set_solver.
Qed.

Ltac step_cases g a Hstep :=
  destruct g as [rs rj aw q dn er ps], a as [| |r0|e0|];
  unfold step, loop, executor, at_pos, on_row, on_error, on_done in Hstep;
  simpl in *; repeat case_match; simplify_eq/=.

Lemma step_done g a g' o :
  step g a = Some (g', o) → done g' = true → done g = true ∨ a = OnDone.
Proof. intros Hstep. step_cases g a Hstep; auto. Qed.

Lemma step_error g a g' o e :
  step g a = Some (g', o) → error g' = Some e →
  error g = Some e ∨ a = OnError e.
Proof. intros Hstep. step_cases g a Hstep; intros; simplify_eq; auto. Qed.

Lemma step_rejected g a g' o e :
  step g a = Some (g', o) → awaited g' = Rejected e →
  awaited g = Rejected e ∨ a = OnError e ∨ error g = Some e.
Proof.
  intros Hstep. step_cases g a Hstep; intros; simplify_eq; auto;
    destruct aw; simplify_eq/=; auto.
Qed.

Lemma step_resolved_none g a g' o :
  step g a = Some (g', o) → awaited g' = Resolved None →
  awaited g = Resolved None ∨ a = OnDone ∨ done g = true.
Proof.
  intros Hstep. step_cases g a Hstep; intros; simplify_eq; auto;
    destruct aw; simplify_eq/=; auto.
Qed.

Lemma step_answer g a g' o :
  step g a = Some (g', o) →
  match o with
  | Some Returned => done g = true
  | Some (Thrown e) => error g = Some e ∨ awaited g = Rejected e
  | Some (Yielded None) => awaited g = Resolved None
  | _ => True
  end.
Proof.
  intros Hstep. step_cases g a Hstep; auto.
  all: by destruct dn.
Qed.

Lemma shape_step g a g' o ys recv :
  shape g ys recv → step g a = Some (g', o) →
  shape g' (ys ++ yielded_rows (emit_opt o)) (recv ++ received [a]).
Proof.
  intros (Hres & Hpend & Hpipe) Hstep. unfold shape.
  step_cases g a Hstep; unfold pipeline in *; simpl in *.
  all: try (destruct aw as [|[?|]|?]; simplify_eq/=).
  all: split_and!; intros; simplify_eq/=; rewrite ?app_nil_r, <- ?app_assoc;
    try done.
  all: repeat match goal with
       | H : ?x = ?x → _ |- _ => specialize (H eq_refl)
       | H : _ ∧ _ |- _ => destruct H
       | H : _ ∨ _ |- _ => destruct H
       | H : ∀ v, Resolved _ ≠ Resolved v |- _ => exfalso; exact (H _ eq_refl)
       | v : option R |- _ => destruct v
       end; simplify_eq/=; rewrite ?app_nil_r, <- ?app_assoc; try done.
  all: try (by apply prefix_app_r).
  all: try (by left).
  all: try (by right).
Qed.

Lemma safe_step hist g outs a g' o :
  safe hist g outs → step g a = Some (g', o) →
  safe (hist ++ [a]) g' (outs ++ emit_opt o).
Proof.
  intros (Hd & He & Hrej & Hrn & Hret & Hthr & Hyn & Hshape) Hstep.
  pose proof (step_answer _ _ _ _ Hstep) as Hans.
  unfold safe. rewrite received_app, yielded_rows_app. split_and!.
  - intros Hd'. destruct (step_done _ _ _ _ Hstep Hd') as [?| ->]; set_solver.
  - intros e He'.
    destruct (step_error _ _ _ _ _ Hstep He') as [?| ->]; set_solver.
  - intros e He'.
    destruct (step_rejected _ _ _ _ _ Hstep He') as [?|[->|?]]; set_solver.
  - intros Hn.
    destruct (step_resolved_none _ _ _ _ Hstep Hn) as [?|[->|?]]; set_solver.
  - intros [Hin|Hin]%elem_of_app; [set_solver|].
    destruct o as [p|]; [|by apply elem_of_nil in Hin].
    apply list_elem_of_singleton in Hin as <-. set_solver.
  - intros e [Hin|Hin]%elem_of_app; [set_solver|].
    destruct o as [p|]; [|by apply elem_of_nil in Hin].
    apply list_elem_of_singleton in Hin as <-. destruct Hans; set_solver.
  - intros [Hin|Hin]%elem_of_app; [set_solver|].
    destruct o as [p|]; [|by apply elem_of_nil in Hin].
    apply list_elem_of_singleton in Hin as <-. set_solver.
  - by apply (shape_step g a).
Qed.

Lemma safe_run sched : ∀ hist g outs g' outs',
  safe hist g outs → run g sched = Some (g', outs') →
  safe (hist ++ sched) g' (outs ++ outs').
Proof.
  induction sched as [|a sched IH]; intros hist g outs g' outs' Hsafe Hrun.
  - simpl in Hrun. simplify_eq. by rewrite !app_nil_r.
  - apply StreamRowsFacts.run_cons in Hrun as (g1 & o & outs1 & Hs & Hrun & ->).
    rewrite (app_assoc outs), (cons_middle a hist sched), (app_assoc hist).
    eapply IH; [|done]. by eapply safe_step.
Qed.

Lemma safe_reached sched g outs :
  run init sched = Some (g, outs) → safe sched g outs.
Proof. intros Hrun. by apply (safe_run sched [] init [] g outs safe_init). Qed.

(** X1: whatever the schedule (callbacks in any order, errors included),
    the rows the pulls have received are an initial segment of the rows the
    driver delivered: none out of order, none twice, none invented. *)
Theorem yielded_rows_prefix sched g outs :
  run init sched = Some (g, outs) →
  yielded_rows outs `prefix_of` received sched.
Proof.
  intros Hrun. destruct (safe_reached _ _ _ Hrun) as (_&_&_&_&_&_&_&_&_&Hpipe).
  destruct (pipeline g) as [q|]; [|done]. rewrite Hpipe. by apply prefix_app_r.
Qed.

(** X2: the sequence ends normally only after the driver's [done], throws
    only an error the driver reported, and carries [undefined] only after
    [done]. *)
Theorem endings_come_from_driver sched g outs :
  run init sched = Some (g, outs) →
  (Returned ∈ outs → OnDone ∈ sched)
  ∧ (∀ e, Thrown e ∈ outs → OnError e ∈ sched)
  ∧ (Yielded None ∈ outs → OnDone ∈ sched).
Proof.
  intros Hrun.
  destruct (safe_reached _ _ _ Hrun) as (_&_&_&_&Hret&Hthr&Hyn&_). auto.
Qed.

(** X3: where an error is raised at once. In a reached state where the
    generator is suspended at the yield from the queue, or waits on a
    pending promise, or is suspended at the yield of an awaited row with
    rows queued or [done] not seen, an error reported now is what the
    consumer's next step receives, whatever the queue holds, and it ends
    the sequence. *)
Theorem error_raised_at_next_step sched g outs (e : E) :
  run init sched = Some (g, outs) →
  raises_next g = true →
  ∃ g1 g2, step g (OnError e) = Some (g1, None)
           ∧ next_answer g1 = Some (g2, Some (Thrown e))
           ∧ pos g2 = Completed.
Proof.
  intros Hrun Hnext.
  destruct (safe_reached _ _ _ Hrun) as (_&_&_&_&_&_&_&_&Hpend&_).
  destruct g as [rs rj aw q dn er ps]. unfold raises_next in Hnext.
  simpl in *. destruct ps; try done.
  - destruct rj; eexists _, _; (split; [reflexivity|]); by split.
  - destruct aw; try done.
    destruct (Hpend eq_refl eq_refl) as (_ & -> & _).
    eexists _, _. split; [reflexivity|]. by split.
  - apply negb_true_iff in Hnext.
    destruct rj; eexists _, _; (split; [reflexivity|]);
      unfold next_answer, on_error, step, loop, at_pos; simpl;
      rewrite Hnext; by split.
Qed.

End Facts.
End StreamTraceFacts.

(** ** The pool configuration and the manager's runs: properties *)
Module PoolTraceFacts.
Import Pool PoolConfig PoolTrace.
Section Facts.
Variable sha256_hex : string → string.
Variable JSON_stringify : gmap string jsval → string.
Variable times_1000 : jsval → jsval.

Local Abbreviation getConfigHash := (getConfigHash sha256_hex JSON_stringify).
Local Abbreviation getPool := (getPool sha256_hex JSON_stringify).
Local Abbreviation run := (run sha256_hex JSON_stringify).
Local Abbreviation step := (step sha256_hex JSON_stringify).
Local Abbreviation coherent := (coherent sha256_hex JSON_stringify).

(** The hashed object holds each hashed property under its name. *)
Lemma configForHash_lookup (appConfig : gmap string jsval) (k : string) :
  k ∈ hashed_properties →
  configForHash appConfig !! k = Some (prop appConfig k).
Proof.
  unfold hashed_properties, configForHash. intros Hk.
  repeat (apply elem_of_cons in Hk as [->|Hk];
          [simpl; by repeat (rewrite lookup_insert_ne by done);
             rewrite lookup_insert_eq|]).
  by apply elem_of_nil in Hk.
Qed.

Ltac hashed :=
  unfold hashed_properties;
  repeat first [ by apply elem_of_cons; left | apply elem_of_cons; right ].

Lemma configForHash_prop (c1 c2 : gmap string jsval) (k : string) :
  configForHash c1 = configForHash c2 → k ∈ hashed_properties →
  prop c1 k = prop c2 k.
Proof.
  intros Heq Hk. apply (inj Some).
  by rewrite <- !configForHash_lookup, Heq.
Qed.

(** The connection test of [onSync] uses the settings of the blocks' pool,
    with a pool of at most one connection. *)
Lemma syncPoolConfig_matches_createPoolConfig (config : gmap string jsval) :
  syncPoolConfig times_1000 config
  = with_limits 1 None None (createPoolConfig times_1000 config).
Proof. reflexivity. Qed.

(** X4: the hash covers everything a pool is built from. Two application
    configurations with the same hashed object give the same pool
    configuration, for the blocks' pool and for the pool of the connection
    test, so a change that alters either always alters the hashed object. *)
Theorem hashed_object_determines_pool_config (c1 c2 : gmap string jsval) :
  configForHash c1 = configForHash c2 →
  createPoolConfig times_1000 c1 = createPoolConfig times_1000 c2
  ∧ syncPoolConfig times_1000 c1 = syncPoolConfig times_1000 c2.
Proof.
  intros Heq.
  assert (createPoolConfig times_1000 c1 = createPoolConfig times_1000 c2)
    as Hsame.
  { unfold createPoolConfig.
    by rewrite !(configForHash_prop c1 c2 _ Heq) by hashed. }
  split; [done|].
  by rewrite !syncPoolConfig_matches_createPoolConfig, Hsame.
Qed.

(** X5: the hash reads the ten hashed properties only. Configurations that
    agree on them (a missing property counting as [undefined]) have the
    same hash, whatever else they hold. *)
Theorem getConfigHash_reads_hashed_properties (c1 c2 : gmap string jsval) :
  (∀ k, k ∈ hashed_properties → prop c1 k = prop c2 k) →
  getConfigHash c1 = getConfigHash c2.
Proof.
  intros Hagree. unfold Pool.getConfigHash, configForHash.
  by rewrite !Hagree by hashed.
Qed.

Lemma config_alter (ps : list pool) (i : nat) (b : bool) (p : nat) :
  pool_config <$> alter (set_connected b) i ps !! p = pool_config <$> ps !! p.
Proof.
  rewrite list_lookup_alter. case_decide; [subst|done].
  by destruct (ps !! p).
Qed.

Lemma config_snoc (ps : list pool) (pl : pool) (p : nat) c :
  pool_config <$> ps !! p = Some c →
  pool_config <$> (ps ++ [pl]) !! p = Some c.
Proof.
  destruct (ps !! p) as [pl0|] eqn:Hp; [|done].
  by rewrite (lookup_app_l_Some _ _ _ _ Hp).
Qed.

Lemma config_new (ps : list pool) (pl : pool) :
  pool_config <$> (ps ++ [pl]) !! length ps = Some (pool_config pl).
Proof. by rewrite PoolFacts.lookup_snoc. Qed.

Lemma coherent_init : coherent init.
Proof. repeat split; intros; simplify_eq/=. Qed.

(** Constructing a pool and starting to connect keeps the state coherent,
    whatever is stored as the global pool afterwards among what was stored
    before. *)
Lemma coherent_create s appConfig g s' st :
  coherent s → (g = globalPool s ∨ g = None) →
  create_and_connect appConfig (getConfigHash appConfig) g s = (s', st) →
  coherent s'
  ∧ inits s' = inits s
  ∧ poolInitializationPromise s' = poolInitializationPromise s
  ∧ ∃ c, st = Connecting (length (pools s)) (getConfigHash c)
         ∧ pool_config <$> pools s' !! length (pools s) = Some c.
Proof.
  intros (Hg & Hc & Hcl & Hp) Hgp [= <- <-]. simpl.
  split; [|split; [done|split; [done|]]].
  - split_and!; simpl.
    + intros p ->. destruct Hgp as [Hgp|?]; [|done].
      destruct (Hg p) as (c & Hc1 & Hc2); [done|].
      exists c. split; [by apply config_snoc|done].
    + intros i p h Hi. destruct (Hc i p h Hi) as (c & Hc1 & ->).
      exists c. split; [by apply config_snoc|done].
    + done.
    + done.
  - exists appConfig. split; [done|]. apply config_new.
Qed.

Lemma coherent_getPool s appConfig s' a :
  coherent s → getPool s appConfig = (s', a) → coherent s'.
Proof.
  intros Hco. unfold Pool.getPool.
  destruct (reusable s _); [by intros [= <- <-]|].
  destruct (in_progress s _); [by intros [= <- <-]|].
  unfold initialize.
  destruct (start_initialization appConfig (getConfigHash appConfig) s)
    as [s1 st] eqn:Hstart.
  intros [= <- <-].
  assert (coherent s1 ∧ inits s1 = inits s
          ∧ match st with
            | Closing _ c h => h = getConfigHash c
            | Connecting p h =>
                ∃ c, pool_config <$> pools s1 !! p = Some c ∧ h = getConfigHash c
            | _ => False
            end) as (Hco1 & Hin & Hst).
  { unfold start_initialization in Hstart.
    destruct (globalPool s) as [old|] eqn:Hg.
    - case_bool_decide.
      + simplify_eq/=. destruct Hco as (Hg' & Hc & Hcl & Hp).
        split; [|done]. split_and!; simpl.
        * intros p [= <-]. destruct (Hg' old Hg) as (c & Hc1 & Hc2).
          exists c. by rewrite config_alter.
        * intros i p h Hi. destruct (Hc i p h Hi) as (c & Hc1 & Hc2).
          exists c. by rewrite config_alter.
        * done.
        * done.
      + destruct (coherent_create s appConfig (Some old) s1 st Hco)
          as (? & ? & ? & c & -> & ?); [left; by rewrite Hg|done|].
        split; [done|]. split; [done|]. by exists c.
    - destruct (coherent_create s appConfig None s1 st Hco)
        as (? & ? & ? & c & -> & ?); [by right|done|].
      split; [done|]. split; [done|]. by exists c. }
  destruct Hco1 as (Hg & Hc & Hcl & Hp). split_and!; simpl.
  - done.
  - intros i p h [[_ Hi]|[-> ->]]%lookup_snoc_Some; [by eapply Hc|done].
  - intros i old c h [[_ Hi]|[-> ->]]%lookup_snoc_Some; [by eapply Hcl|done].
  - intros i [= <-]. exists st. rewrite PoolFacts.lookup_snoc.
    split; [done|]. by destruct st.
Qed.

Lemma coherent_close_settled s i s' :
  coherent s → close_settled i s = Some s' → coherent s'.
Proof.
  intros Hco. unfold close_settled.
  destruct (inits s !! i) as [[old appConfig h| | |]|] eqn:Hi; try done.
  assert (h = getConfigHash appConfig) as ->
    by (destruct Hco as (_ & _ & Hcl & _); by eapply Hcl).
  destruct (create_and_connect appConfig (getConfigHash appConfig) None s)
    as [s1 st] eqn:Hcreate.
  destruct (coherent_create s appConfig None s1 st Hco)
    as ((Hg & Hc & Hcl & Hp) & Hin & Hpr & c & -> & Hnew); [by right|done|].
  intros [= <-]. split_and!; simpl.
  - done.
  - intros j p h [(-> & [= <- <-] & _)|[_ Hj]]%list_lookup_insert_Some.
    + by exists c.
    + by eapply Hc.
  - intros j old' c' h [(-> & ? & _)|[_ Hj]]%list_lookup_insert_Some;
      [done|by eapply Hcl].
  - intros j Hj. destruct (Hp j Hj) as (st & Hst & Hun).
    destruct (decide (i = j)) as [->|Hne].
    + exists (Connecting (length (pools s)) (getConfigHash c)).
      split; [|done].
      apply list_lookup_insert_eq. by eapply lookup_lt_Some.
    + exists st. by rewrite list_lookup_insert_ne.
Qed.

Lemma coherent_connect_settled s i err s' :
  coherent s → connect_settled i err s = Some s' → coherent s'.
Proof.
  intros (Hg & Hc & Hcl & Hp). unfold connect_settled.
  destruct (inits s !! i) as [[|p h| |]|] eqn:Hi; try done.
  destruct err as [e|]; intros [= <-]; split_and!; simpl; try done.
  - intros j p' h' [(-> & ? & _)|[_ Hj]]%list_lookup_insert_Some;
      [done|by eapply Hc].
  - intros j old' c' h' [(-> & ? & _)|[_ Hj]]%list_lookup_insert_Some;
      [done|by eapply Hcl].
  - intros q [= <-]. destruct (Hc i p h Hi) as (c & Hc1 & ->).
    exists c. by rewrite config_alter.
  - intros j p' h' [(-> & ? & _)|[_ Hj]]%list_lookup_insert_Some; [done|].
    destruct (Hc j p' h' Hj) as (c & Hc1 & ->).
    exists c. by rewrite config_alter.
  - intros j old' c' h' [(-> & ? & _)|[_ Hj]]%list_lookup_insert_Some;
      [done|by eapply Hcl].
Qed.

Lemma coherent_step s ev s' answers :
  coherent s → step s ev = Some (s', answers) → coherent s'.
Proof.
  intros Hco. destruct ev as [appConfig|i|i err]; simpl.
  - destruct (Pool.getPool _ _ s appConfig) as [s1 a] eqn:Hget.
    intros [= <- <-]. by eapply coherent_getPool.
  - destruct (close_settled i s) as [s1|] eqn:Hcl; [|done].
    intros [= <- <-]. by eapply coherent_close_settled.
  - destruct (connect_settled i err s) as [s1|] eqn:Hcn; [|done].
    intros [= <- <-]. by eapply coherent_connect_settled.
Qed.

Lemma coherent_run evs : ∀ s s' answers,
  coherent s → run s evs = Some (s', answers) → coherent s'.
Proof.
  induction evs as [|ev evs IH]; intros s s' answers Hco; simpl.
  - by intros [= <- <-].
  - destruct (Pool.step _ _ s ev) as [[s1 a1]|] eqn:Hstep; [|done]. simpl.
    destruct (Pool.run _ _ s1 evs) as [[s2 a2]|] eqn:Hrun; [|done]. simpl.
    intros [= <- <-]. eapply IH; [|done]. by eapply coherent_step.
Qed.

(** X6: in every state the manager reaches, whatever the interleaving of
    calls and settled driver calls, a call answered at once gets a pool that
    is connected and was constructed from a configuration with the caller's
    hash. *)
Theorem pool_returned_at_once_matches (evs : list event) (s s' : state)
    (answers : list answer) (appConfig : gmap string jsval) (p : nat) :
  run init evs = Some (s, answers) →
  getPool s appConfig = (s', Now p) →
  ∃ pl, pools s !! p = Some pl ∧ connected pl = true
        ∧ getConfigHash (pool_config pl) = getConfigHash appConfig.
Proof.
  intros Hrun Hget.
  destruct (coherent_run evs init s answers coherent_init Hrun) as (Hg & _).
  unfold Pool.getPool in Hget.
  destruct (reusable s (getConfigHash appConfig)) as [p'|] eqn:Hre.
  - injection Hget as <- ->. unfold reusable in Hre.
    destruct (globalPool s) as [q|] eqn:Hq; [|done].
    destruct (bool_decide _) eqn:Hh; [|done].
    destruct (is_connected s q) eqn:Hconn; [|done].
    simpl in Hre. injection Hre as ->. apply bool_decide_eq_true in Hh.
    destruct (Hg p eq_refl) as (c & Hc1 & Hc2).
    unfold is_connected in Hconn.
    destruct (pools s !! p) as [pl|]; [|done].
    exists pl. simpl in Hc1. split_and!; [done|done|congruence].
  - destruct (in_progress s _); [done|].
    unfold initialize in Hget.
    by destruct (start_initialization _ _ _).
Qed.

(** X7: in every state the manager reaches, a call that is not answered at
    once is tied to an initialisation that has not settled yet: its own new
    one or the one in progress. *)
Theorem call_waits_on_running_initialization (evs : list event)
    (s s' : state) (answers : list answer)
    (appConfig : gmap string jsval) (i : nat) :
  run init evs = Some (s, answers) →
  getPool s appConfig = (s', Later i) →
  ∃ st, inits s' !! i = Some st ∧ unsettled st = true.
Proof.
  intros Hrun Hget.
  pose proof (coherent_run evs init s answers coherent_init Hrun) as Hco.
  destruct (coherent_getPool s appConfig s' (Later i) Hco Hget)
    as (_ & _ & _ & Hp).
  apply Hp. unfold Pool.getPool in Hget.
  destruct (reusable s _); [done|].
  destruct (in_progress s (getConfigHash appConfig)) as [j|] eqn:Hin.
  - injection Hget as <- ->. unfold in_progress in Hin.
    destruct (poolInitializationPromise s); [|done].
    by destruct (bool_decide _); simplify_eq.
  - unfold initialize in Hget.
    destruct (start_initialization _ _ _). by injection Hget as <- <-.
Qed.

(** X8: a failed initialisation is not kept. After a call whose
    configuration hash differs from the stored one and whose connect is
    rejected, no pool is stored, the stored hash is the one from before,
    the promise variable is cleared, and the next call with that
    configuration starts a new initialisation. *)
Theorem failed_initialization_is_retried (s : state)
    (appConfig : gmap string jsval) (e : string) :
  currentConfigHash s ≠ Some (getConfigHash appConfig) →
  ∃ s',
    run s (failing_call s appConfig e)
    = Some (s', [Later (length (inits s))])
    ∧ globalPool s' = None
    ∧ currentConfigHash s' = currentConfigHash s
    ∧ poolInitializationPromise s' = None
    ∧ inits s' !! length (inits s) = Some (Failed e)
    ∧ snd (getPool s' appConfig) = Later (S (length (inits s)))
    ∧ length (pools (fst (getPool s' appConfig))) = S (S (length (pools s))).
Proof.
  intros Hh. destruct s as [gp ch pr ps ins tr].
  unfold failing_call. simpl in *.
  assert (reusable {| globalPool := gp; currentConfigHash := ch;
                      poolInitializationPromise := pr; pools := ps;
                      inits := ins; trace := tr |}
            (getConfigHash appConfig) = None) as Hre.
  { unfold reusable. simpl. destruct gp; [|done].
    by rewrite bool_decide_eq_false_2. }
  assert (in_progress {| globalPool := gp; currentConfigHash := ch;
                         poolInitializationPromise := pr; pools := ps;
                         inits := ins; trace := tr |}
            (getConfigHash appConfig) = None) as Hin.
  { unfold in_progress. simpl. destruct pr; [|done].
    by rewrite bool_decide_eq_false_2. }
  unfold Pool.getPool at 1. rewrite Hre, Hin.
  unfold initialize, start_initialization. simpl.
  destruct gp as [old|]; simpl.
  - rewrite bool_decide_eq_true_2 by done. simpl.
    unfold close_settled. simpl. rewrite PoolFacts.lookup_snoc. simpl.
    unfold connect_settled. simpl.
    rewrite length_alter, PoolFacts.insert_snoc, PoolFacts.lookup_snoc. simpl.
    eexists. split; [reflexivity|]. simpl.
    rewrite PoolFacts.insert_snoc, PoolFacts.lookup_snoc.
    split_and!; try done.
    + unfold Pool.getPool, reusable, in_progress, initialize,
        start_initialization, create_and_connect. simpl.
      rewrite length_app. simpl. f_equal. lia.
    + unfold Pool.getPool, reusable, in_progress, initialize,
        start_initialization, create_and_connect. simpl.
      rewrite !length_app, length_alter. simpl. lia.
  - unfold connect_settled. simpl. rewrite PoolFacts.lookup_snoc. simpl.
    eexists. split; [reflexivity|]. simpl.
    rewrite PoolFacts.insert_snoc, PoolFacts.lookup_snoc.
    split_and!; try done.
    + unfold Pool.getPool, reusable, in_progress, initialize,
        start_initialization, create_and_connect. simpl.
      rewrite length_app. simpl. f_equal. lia.
    + unfold Pool.getPool, reusable, in_progress, initialize,
        start_initialization, create_and_connect. simpl.
      rewrite !length_app. simpl. lia.
Qed.

End Facts.
End PoolTraceFacts.

(** ** The blocks: further properties *)
Module BlocksMoreFacts.
Import Blocks BlocksMore.

Section Handlers.
Variable database :
  list effect → string → list (string * jsval) → string + query_result.
Variable input_error : string → jsval → option string.

Local Abbreviation accepted := (accepted input_error).
Local Abbreviation executeQuery := (executeQuery database input_error).
Local Abbreviation executeCommand := (executeCommand database input_error).
Local Abbreviation streamQuery := (streamQuery input_error).

(** X9: when [getPool] rejects, every block rethrows that error and does
    nothing else: no request, no statement, no event. *)
Theorem pool_failure_stops_every_block (e : string) (log : list effect) :
  (∀ query parameters,
     executeQuery (Some e) query parameters log = (inl e, log))
  ∧ (∀ command parameters,
     executeCommand (Some e) command parameters log = (inl e, log))
  ∧ (∀ table columns rows,
     bulkInsert database (Some e) table columns rows log = (inl e, log))
  ∧ (∀ query parameters configBatchSize pulls,
     streamQuery (Some e) query parameters configBatchSize pulls log
     = (inl e, log))
  ∧ (∀ schemaName table,
     getTableInfo database (Some e) schemaName table log = (inl e, log)).
Proof. repeat split. Qed.

Lemma bulkInsert_outcome rejected table columns rows :
  length (emitted (snd (bulkInsert database rejected table columns rows [])))
  = if returned (fst (bulkInsert database rejected table columns rows []))
    then 1 else 0.
Proof.
  destruct rejected as [e|]; [done|].
  unfold bulkInsert, bind, acquire_pool, pool_request. simpl.
  case_bool_decide; [done|].
  destruct (fold_left bind_row rows _) as [[rq i] placeholders].
  unfold request_query, emit. simpl.
  by destruct (database _ _ _).
Qed.

Lemma getTableInfo_outcome rejected schemaName table :
  length (emitted (snd (getTableInfo database rejected schemaName table [])))
  = if returned (fst (getTableInfo database rejected schemaName table []))
    then 1 else 0.
Proof.
  unfold getTableInfo, introspect, bind, acquire_pool, pool_request,
    request_query, emit, throw, ret.
  destruct rejected as [e|]; [done|]. simpl.
  destruct (database _ _ _) as [e|tableResult]; [done|]. simpl.
  destruct (recordset tableResult) as [|tableInfo others]; [done|]. simpl.
  destruct (database _ _ _) as [e|columnsResult]; [done|]. simpl.
  destruct (database _ _ _) as [e|constraintsResult]; [done|]. simpl.
  by destruct (database _ _ _) as [e|indexesResult].
Qed.

(** X10: the query, command, bulk insert and table introspection blocks
    emit exactly one event when they return and none when they throw. *)
Theorem one_event_or_none :
  (∀ rejected query parameters,
     length (emitted (snd (executeQuery rejected query parameters [])))
     = if returned (fst (executeQuery rejected query parameters []))
       then 1 else 0)
  ∧ (∀ rejected command parameters,
     length (emitted (snd (executeCommand rejected command parameters [])))
     = if returned (fst (executeCommand rejected command parameters []))
       then 1 else 0)
  ∧ (∀ rejected table columns rows,
     length (emitted (snd (bulkInsert database rejected table columns rows [])))
     = if returned (fst (bulkInsert database rejected table columns rows []))
       then 1 else 0)
  ∧ (∀ rejected schemaName table,
     length (emitted (snd (getTableInfo database rejected schemaName table [])))
     = if returned (fst (getTableInfo database rejected schemaName table []))
       then 1 else 0).
Proof.
  split_and!.
  - intros rejected query parameters. rewrite BlocksFacts.executeQuery_run.
    destruct rejected; [done|]. simpl.
    destruct (first_refused _ _); [done|]. by destruct (database _ _ _).
  - intros rejected command parameters. rewrite BlocksFacts.executeCommand_run.
    destruct rejected; [done|]. simpl.
    destruct (first_refused _ _); [done|]. by destruct (database _ _ _).
  - apply bulkInsert_outcome.
  - apply getTableInfo_outcome.
Qed.

(** X11: the command block, whatever the pool, the driver and the
    database do. A statement it sends is the command text as it is, with
    the user's parameters bound in the order of their entries. When it
    returns, that statement succeeded and the one event carries the sum of
    all the counts in [rowsAffected] (0 for an empty array). When the
    statement it sent fails, it rethrows that error and emits nothing. *)
Theorem executeCommand_sums_counts (rejected : option string)
    (command : string) (parameters : option (list (string * jsval))) :
  let run := executeCommand rejected command parameters [] in
  let params := default [] parameters in
  (∀ sql bound, QuerySent sql bound ∈ run.2 → sql = command ∧ bound = params)
  ∧ (run.1 = inr tt →
     ∃ result,
       database [RequestCreated] command params = inr result
       ∧ emitted run.2
         = [CommandResult (foldr Z.add 0%Z (rowsAffected result))])
  ∧ (∀ e, QuerySent command params ∈ run.2 →
          database [RequestCreated] command params = inl e →
          run.1 = inl e ∧ emitted run.2 = []).
Proof.
  intros run params. unfold run.
  rewrite BlocksFacts.executeCommand_run. fold params.
  destruct rejected as [e0|]; simpl.
  { split_and!; [|done|].
    - intros sql bound Hin. by apply elem_of_nil in Hin.
    - intros e Hin. by apply elem_of_nil in Hin. }
  destruct (first_refused _ _) as [e0|]; simpl.
  { split_and!; [|done|].
    - intros sql bound Hin. apply list_elem_of_singleton in Hin. discriminate.
    - intros e Hin. apply list_elem_of_singleton in Hin. discriminate. }
  destruct (database _ _ _) as [e0|result]; simpl.
  - split_and!; [|done|by intros e _ [= <-]].
    intros sql bound Hin.
    repeat (apply elem_of_cons in Hin as [Hin|Hin]; [by simplify_eq|]).
    by apply elem_of_nil in Hin.
  - split_and!; [| |done].
    + intros sql bound Hin.
      repeat (apply elem_of_cons in Hin as [Hin|Hin]; [by simplify_eq|]).
      by apply elem_of_nil in Hin.
    + intros _. exists result. split; [done|].
      unfold totalRowsAffected.
      by rewrite BlocksFacts.fold_left_sum, Z.add_0_l.
Qed.

(** X12: the table introspection block never puts the schema or table name
    into SQL text. Whatever the inputs and whatever the database answers,
    every statement it sends is one of its four constant texts, with the
    schema name ([dbo] when unset or empty) bound as [p1] and the table name
    as [p2]. *)
Theorem getTableInfo_sends_fixed_statements rejected schemaName table :
  Forall (λ ef, match ef with
                | QuerySent sql params =>
                    sql ∈ introspection_statements
                    ∧ params = [("p1", VStr (actualSchema schemaName));
                                ("p2", VStr table)]
                | _ => True
                end)
    (snd (getTableInfo database rejected schemaName table [])).
Proof.
  unfold getTableInfo, introspect, bind, acquire_pool, pool_request,
    request_query, emit, throw, ret.
  fold (actualSchema schemaName). generalize (actualSchema schemaName).
  intros sch.
  destruct rejected as [e|]; [constructor|]. simpl.
  destruct (database _ _ _) as [e|tableResult]; simpl.
  { repeat constructor. }
  destruct (recordset tableResult) as [|tableInfo others]; simpl.
  { repeat constructor. }
  destruct (database _ _ _) as [e|columnsResult]; simpl.
  { repeat constructor. }
  destruct (database _ _ _) as [e|constraintsResult]; simpl.
  { repeat constructor. }
  destruct (database _ _ _) as [e|indexesResult]; simpl;
    repeat constructor.
Qed.

(** X13: when the first query finds no row, the table introspection block
    throws [Table <schema>.<table> not found], with [dbo] for an unset or
    empty schema name, after that one query and without emitting. *)
Theorem getTableInfo_table_not_found schemaName table result :
  database [RequestCreated] tableQuery
    [("p1", VStr (actualSchema schemaName)); ("p2", VStr table)]
  = inr result →
  recordset result = [] →
  getTableInfo database None schemaName table []
  = (inl ("Table " +:+ actualSchema schemaName +:+ "." +:+ table
          +:+ " not found"),
     [RequestCreated;
      QuerySent tableQuery
        [("p1", VStr (actualSchema schemaName)); ("p2", VStr table)]]).
Proof.
  intros Hdb Hempty.
  unfold getTableInfo, introspect, bind, acquire_pool, pool_request,
    request_query, emit, throw, ret.
  fold (actualSchema schemaName). simpl. rewrite Hdb. simpl.
  by rewrite Hempty.
Qed.

(** X14: when the table is found and the three further queries succeed, the
    one event takes the table's fields from the first row of the first
    query and lists the columns, constraints and indexes in the order of
    the rows of their queries; a column is nullable exactly when its
    [is_nullable] is the string [YES]. *)
Theorem getTableInfo_event schemaName table
    tableResult tableInfo others columnsResult constraintsResult
    indexesResult log1 log2 log3 :
  let params := [("p1", VStr (actualSchema schemaName)); ("p2", VStr table)] in
  database [RequestCreated] tableQuery params = inr tableResult →
  recordset tableResult = tableInfo :: others →
  log1 = [RequestCreated; QuerySent tableQuery params; RequestCreated] →
  database log1 columnsQuery params = inr columnsResult →
  log2 = log1 ++ [QuerySent columnsQuery params; RequestCreated] →
  database log2 constraintsQuery params = inr constraintsResult →
  log3 = log2 ++ [QuerySent constraintsQuery params; RequestCreated] →
  database log3 indexesQuery params = inr indexesResult →
  emitted (snd (getTableInfo database None schemaName table []))
  = [TableInformation
       (field tableInfo "table_schema") (field tableInfo "table_name")
       (field tableInfo "table_type") (field tableInfo "table_comment")
       (map column_of (recordset columnsResult))
       (map constraint_of (recordset constraintsResult))
       (map index_of (recordset indexesResult))]
  ∧ ∀ col, col_nullable (column_of col) = true
           ↔ col !! "is_nullable" = Some (VStr "YES").
Proof.
  intros params Ht Hrows -> Hc -> Hk -> Hi. split.
  - unfold getTableInfo, introspect, bind, acquire_pool, pool_request,
      request_query, emit, throw, ret.
    fold (actualSchema schemaName). simpl. fold params.
    rewrite Ht. simpl. rewrite Hrows. simpl in *.
    rewrite Hc. simpl. rewrite Hk. simpl. by rewrite Hi.
  - intros col. unfold column_of, field. simpl.
    destruct (col !! "is_nullable") as [[]|]; simpl; try (split; done).
    rewrite bool_decide_eq_true. split; congruence.
Qed.

Lemma param_name_inj : Inj (=) (=) (λ i : nat, "p" +:+ pretty i).
Proof. intros i j Hij. simpl in Hij. injection Hij. apply pretty_nat_inj. Qed.

Lemma bound_names (i : nat) (l : list jsval) :
  (zip_with (λ j value, ("p" +:+ pretty j, serializeValue value))
     (seq i (length l)) l).*1
  = map (λ j : nat, "p" +:+ pretty j) (seq i (length l)).
Proof.
  revert i. induction l as [|v l IH]; intros i; [done|].
  simpl. f_equal. apply IH.
Qed.

(** X15: the bulk insert binds one parameter per cell and no parameter
    name twice, whatever the rows hold. *)
Theorem bulkInsert_binds_each_cell_once table columns rows sql params :
  QuerySent sql params ∈ snd (bulkInsert database None table columns rows []) →
  NoDup params.*1 ∧ length params = length (concat rows).
Proof.
  unfold bulkInsert, bind, acquire_pool, pool_request. simpl.
  case_bool_decide.
  { intros Hin. apply list_elem_of_singleton in Hin. done. }
  rewrite BlocksFacts.bind_row_fold. simpl. unfold request_query, emit. simpl.
  intros Hin.
  assert (params
          = zip_with (λ j value, ("p" +:+ pretty j, serializeValue value))
              (seq 1 (length (cells rows))) (cells rows)) as ->.
  { destruct (database _ _ _); simpl in Hin;
      repeat (apply elem_of_cons in Hin as [Hin|Hin]; [by simplify_eq|]);
      by apply elem_of_nil in Hin. }
  split.
  - rewrite bound_names. apply NoDup_fmap_2; [apply param_name_inj|].
    apply NoDup_seq.
  - rewrite length_zip_with, length_seq. unfold cells. lia.
Qed.

(** X16: for rows that are not empty the bulk insert never reports a row
    count of 0: it reports the driver's total, or the number of rows when
    that total is 0. *)
Theorem bulkInsert_rowCount_not_zero table columns rows n t :
  rows ≠ [] →
  Emitted (InsertResult n t)
    ∈ snd (bulkInsert database None table columns rows []) →
  n ≠ 0%Z ∧ t = table.
Proof.
  intros Hrows. unfold bulkInsert, bind, acquire_pool, pool_request. simpl.
  rewrite bool_decide_eq_false_2 by (by destruct rows).
  destruct (fold_left bind_row rows _) as [[rq i] placeholders].
  unfold request_query, emit. simpl.
  destruct (database _ _ _) as [e|result]; simpl; intros Hin;
    repeat (apply elem_of_cons in Hin as [Hin|Hin]; [simplify_eq|]);
    try (by apply elem_of_nil in Hin).
  split; [|done]. case_bool_decide; [|done].
  destruct rows; [done|]. simpl. lia.
Qed.

End Handlers.

(** X17: what serialising a row keeps. The row has the same keys, but for
    [__proto__], which is dropped; a row with no bigint field and no field
    of that name is unchanged; serialising a second time changes
    nothing. *)
Theorem serializeRow_keeps (r : row) :
  dom (serializeRow r) = dom r ∖ {["__proto__"]}
  ∧ (map_Forall (λ _ v, is_bigint v = false) r →
     r !! "__proto__" = None → serializeRow r = r)
  ∧ serializeRow (serializeRow r) = serializeRow r.
Proof.
  rewrite !BlocksFacts.serializeRow_fmap. split_and!.
  - by rewrite dom_fmap_L, dom_delete_L.
  - intros Hno Hproto. rewrite delete_id by done.
    apply map_eq. intros k. rewrite lookup_fmap.
    destruct (r !! k) as [v|] eqn:Hk; [|done]. simpl.
    by rewrite (BlocksFacts.serializeValue_other v (Hno k v Hk)).
  - rewrite (delete_id (serializeValue <$> delete "__proto__" r))
      by (by rewrite lookup_fmap, lookup_delete_eq).
    rewrite <- map_fmap_compose. apply map_fmap_ext.
    intros k v _. by destruct v.
Qed.

(** *** Table names *)

Lemma append_empty (s : string) : s +:+ "" = s.
Proof.
  induction s as [|c s IH]; [done|].
  change (String c (s +:+ "") = String c s). by rewrite IH.
Qed.

Lemma occurs_app c (s1 s2 : string) :
  occurs c (s1 +:+ s2) = occurs c s1 || occurs c s2.
Proof.
  induction s1 as [|c' s1 IH]; [done|]. simpl. rewrite IH.
  by rewrite orb_assoc.
Qed.

Lemma split_not_nil sep s : split sep s ≠ [].
Proof.
  destruct s as [|c s]; [done|]. simpl.
  case_decide; [done|]. by destruct (split sep s).
Qed.

Lemma split_parts_free sep s :
  Forall (λ part, occurs sep part = false) (split sep s).
Proof.
  induction s as [|c s IH]; simpl; [by repeat constructor|].
  case_decide as Hc; [by constructor|].
  destruct (split sep s) as [|part parts].
  - repeat constructor. simpl. by rewrite bool_decide_eq_false_2.
  - apply Forall_cons in IH as [Hpart Hparts].
    constructor; [|done]. simpl. by rewrite bool_decide_eq_false_2.
Qed.

Lemma split_free sep s : occurs sep s = false → split sep s = [s].
Proof.
  induction s as [|c s IH]; [done|]. simpl.
  intros [Hc Hs%IH]%orb_false_elim. apply bool_decide_eq_false in Hc.
  rewrite decide_False by done. by rewrite Hs.
Qed.

Lemma split_app_free sep part s :
  occurs sep part = false →
  split sep (part +:+ String sep s) = part :: split sep s.
Proof.
  induction part as [|c part IH]; simpl.
  - intros _. by rewrite decide_True.
  - intros [Hc Hs%IH]%orb_false_elim. apply bool_decide_eq_false in Hc.
    rewrite decide_False by done. by rewrite Hs.
Qed.

(** Splitting what was joined gives the parts back. *)
Lemma split_join sep parts :
  parts ≠ [] → Forall (λ part, occurs sep part = false) parts →
  split sep (join (String sep "") parts) = parts.
Proof.
  induction parts as [|part parts IH]; [done|]. intros _ Hfree.
  apply Forall_cons in Hfree as [Hpart Hparts].
  destruct parts as [|part' parts].
  - simpl. by apply split_free.
  - change (join (String sep "") (part :: part' :: parts))
      with (part +:+ String sep (join (String sep "") (part' :: parts))).
    rewrite split_app_free by done. f_equal. by apply IH.
Qed.

Lemma remove_brackets_app (s1 s2 : string) :
  remove_brackets (s1 +:+ s2) = remove_brackets s1 +:+ remove_brackets s2.
Proof.
  induction s1 as [|c s1 IH]; [done|]. simpl. rewrite IH.
  by destruct (decide (c = "["%char ∨ c = "]"%char)).
Qed.

Lemma remove_brackets_occurs c s :
  occurs c (remove_brackets s)
  = occurs c s && negb (bool_decide (c = "["%char ∨ c = "]"%char)).
Proof.
  induction s as [|c' s IH]; [done|]. simpl.
  destruct (decide (c' = "["%char ∨ c' = "]"%char)) as [Hc|Hc]; simpl;
    rewrite IH.
  - destruct (bool_decide (c' = c)) eqn:Hcc; [|done].
    apply bool_decide_eq_true in Hcc as ->.
    rewrite (bool_decide_eq_true_2 _ Hc). simpl. by rewrite andb_false_r.
  - destruct (bool_decide (c' = c)) eqn:Hcc; [|done].
    apply bool_decide_eq_true in Hcc as ->.
    by rewrite (bool_decide_eq_false_2 _ Hc).
Qed.

Lemma remove_brackets_clean s :
  occurs "["%char s = false → occurs "]"%char s = false →
  remove_brackets s = s.
Proof.
  induction s as [|c s IH]; [done|]. simpl.
  intros [Ho Hs1]%orb_false_elim [Hc Hs2]%orb_false_elim.
  apply bool_decide_eq_false in Ho, Hc.
  rewrite decide_False by (intros [?|?]; done). by rewrite IH.
Qed.

Lemma sanitizeIdentifier_bracketed part :
  occurs "."%char part = false → bracketed (sanitizeIdentifier part).
Proof.
  intros Hdot. exists (remove_brackets part). split; [done|].
  rewrite !remove_brackets_occurs, Hdot. simpl.
  by rewrite !andb_false_r.
Qed.

Lemma sanitizeIdentifier_again part :
  sanitizeIdentifier (sanitizeIdentifier part) = sanitizeIdentifier part.
Proof.
  unfold sanitizeIdentifier. f_equal.
  change ("[" +:+ remove_brackets part +:+ "]")
    with ("[" +:+ (remove_brackets part +:+ "]")).
  rewrite (remove_brackets_app "["), remove_brackets_app. simpl.
  rewrite remove_brackets_clean.
  - simpl. by rewrite append_empty.
  - by rewrite remove_brackets_occurs, andb_false_r.
  - by rewrite remove_brackets_occurs, andb_false_r.
Qed.

Lemma sanitized_parts tableName :
  split "."%char (sanitizeTableName tableName)
  = map sanitizeIdentifier (split "."%char tableName).
Proof.
  unfold sanitizeTableName. apply (split_join "."%char).
  - pose proof (split_not_nil "."%char tableName). by destruct (split _ _).
  - apply Forall_fmap. eapply Forall_impl; [apply split_parts_free|].
    intros part Hpart. simpl. unfold sanitizeIdentifier.
    rewrite occurs_app, occurs_app, remove_brackets_occurs, Hpart. done.
Qed.

(** X18: the sanitised table name has as many dot-separated parts as the
    name given, and each part is an identifier in square brackets with no
    bracket and no dot inside: brackets in the name cannot close or open a
    quoted identifier. *)
Theorem sanitizeTableName_parts_bracketed (tableName : string) :
  length (split "."%char (sanitizeTableName tableName))
  = length (split "."%char tableName)
  ∧ Forall bracketed (split "."%char (sanitizeTableName tableName)).
Proof.
  rewrite sanitized_parts. split; [by rewrite length_map|].
  apply Forall_fmap. eapply Forall_impl; [apply split_parts_free|].
  intros part Hpart. by apply sanitizeIdentifier_bracketed.
Qed.

(** X19: sanitising is idempotent: a name that was already sanitised, such
    as [[dbo].[users]], is left as it is. *)
Theorem sanitizeTableName_idempotent (tableName : string) :
  sanitizeTableName (sanitizeTableName tableName) = sanitizeTableName tableName.
Proof.
  unfold sanitizeTableName at 1. rewrite sanitized_parts.
  rewrite <- list_fmap_compose. unfold sanitizeTableName. f_equal.
  apply list_fmap_ext. intros _ part _. apply sanitizeIdentifier_again.
Qed.

(** *** Batches of the streaming block *)

Section Streaming.
Variable input_error : string → jsval → option string.

Local Abbreviation accepted := (accepted input_error).
Local Abbreviation streamQuery := (streamQuery input_error).

(** X20: with a batch size [b ≥ 1] (100 when unset or 0), parameters the
    driver accepts and a stream that ends without error, the batches put
    end to end are exactly the rows of the stream, serialised, in order: no
    row is lost, repeated or moved to another place. *)
Theorem streamQuery_emits_every_row query parameters configBatchSize
    (b : nat) (rows : list row) (marker : bool) :
  0 < b → batch_size configBatchSize = Z.of_nat b →
  accepted parameters →
  concat (map event_rows
            (emitted (snd (streamQuery None query parameters configBatchSize
                             (stream_of rows marker) []))))
  = map serializeRow rows.
Proof.
  intros Hb Hsize Hacc.
  rewrite (BlocksFacts.streamQuery_emitted input_error _ _ _ b) by done.
  rewrite BlocksFacts.numbered_rows.
  by apply (BlocksFacts.chunks_concat b Hb (length rows)); rewrite length_map.
Qed.




(** X23: a batch size of 1 or below, negative ones included (0 excepted,
    which stands for 100), is not refused: once the driver has accepted
    the parameters, every row is emitted as a batch of its own with
    [hasMore: true], and no batch follows the last row. *)
Theorem streamQuery_batch_size_at_most_one query parameters (B : Z)
    (rows : list row) (marker : bool) :
  (B ≤ 1)%Z → B ≠ 0%Z →
  accepted parameters →
  emitted (snd (streamQuery None query parameters (Some B)
                  (stream_of rows marker) []))
  = imap (λ i r, Batch i [serializeRow r] 1 true) rows.
Proof.
  intros HB HB0 Hacc. unfold Blocks.streamQuery, acquire_pool, pool_request,
    stream_started, batch_size.
  rewrite bool_decide_eq_false_2 by done.
  unfold bind at 1 2 3. simpl.
  rewrite BlocksFacts.bind_parameters_run, Hacc.
  unfold bind. simpl.
  rewrite (BlocksFacts.for_await_single B marker HB rows 0). simpl.
  apply (BlocksFacts.emitted_map
           (imap (λ i r, Batch i [serializeRow r] 1 true) rows)).
Qed.

End Streaming.
End BlocksMoreFacts.

(** ** Properties of the connection test *)

Module SyncFacts.
Import PoolConfig Sync.

Section OnSync.
Variable times_1000 : jsval → jsval.

(** X24: a pool that was constructed is closed before [onSync] returns,
    whatever fails: the last call on the driver is [pool.close()]. It is
    called once, or twice when the call inside [try] rejects; a rejection of
    the call in [catch] is swallowed. When the constructor throws there is
    no pool and nothing else is called. *)
Theorem onSync_closes_pool config d :
  let calls := (onSync times_1000 config d).2 in
  match construct_throws d with
  | Some _ => calls = [Construct (syncPoolConfig times_1000 config)]
  | None =>
      last calls = Some Close
      ∧ (closes calls = 1 ∨ closes calls = 2)
      ∧ (closes calls = 2
         ↔ connect_rejects d = None ∧ select_rejects d = None
           ∧ (∃ first rest, permission_answer d = inr (first :: rest))
           ∧ close_rejects d 0 ≠ None)
  end.
Proof.
  intros calls. unfold calls, onSync, close_then, caught.
  destruct (construct_throws d); [done|].
  destruct (connect_rejects d) eqn:Hc.
  { split_and!; [done|by left|]. split; [done|]. by intros [? _]. }
  destruct (select_rejects d) eqn:Hs.
  { split_and!; [done|by left|]. split; [done|]. by intros (_ & ? & _). }
  destruct (permission_answer d) as [error|[|first rest]] eqn:Hp.
  - split_and!; [done|by left|]. split; [done|].
    by intros (_ & _ & (? & ? & ?) & _).
  - split_and!; [done|by left|]. split; [done|].
    by intros (_ & _ & (? & ? & ?) & _).
  - destruct (close_rejects d 0) eqn:Hclose.
    + destruct (negb _); (split_and!; [done|by right|]);
        (split; [|done]); intros _; split_and!; eauto.
    + destruct (negb _); (split_and!; [done|by left|]);
        (split; [done|]); by intros (_ & _ & _ & ?).
Qed.

(** X25: [onSync] reports [ready] exactly when nothing failed: the
    constructor, [connect], [SELECT 1] and the permission query succeed, the
    first row of the permission query has a truthy [can_connect], and
    [pool.close()] succeeds. In particular a pool that passed every test
    but fails to close is reported as failed. *)
Theorem onSync_ready_iff config d :
  newStatus (onSync times_1000 config d).1 = "ready"
  ↔ construct_throws d = None ∧ connect_rejects d = None
    ∧ select_rejects d = None
    ∧ (∃ first rest, permission_answer d = inr (first :: rest)
                     ∧ truthy (Blocks.field first "can_connect") = true)
    ∧ close_rejects d 0 = None.
Proof.
  unfold onSync, close_then, caught.
  destruct (construct_throws d).
  { split; [done|]. by intros [? _]. }
  destruct (connect_rejects d).
  { split; [done|]. by intros (_ & ? & _). }
  destruct (select_rejects d).
  { split; [done|]. by intros (_ & _ & ? & _). }
  destruct (permission_answer d) as [error|[|first rest]].
  - split; [done|]. by intros (_ & _ & _ & (? & ? & ? & _) & _).
  - split; [done|]. by intros (_ & _ & _ & (? & ? & ? & _) & _).
  - destruct (truthy (Blocks.field first "can_connect")) eqn:Ht; simpl;
      destruct (close_rejects d 0); simpl.
    + split; [done|]. by intros (_ & _ & _ & _ & ?).
    + split; [|done]. intros _. split_and!; try done. by exists first, rest.
    + split; [done|]. by intros (_ & _ & _ & _ & ?).
    + split; [done|]. intros (_ & _ & _ & (f & r & [= <- <-] & Hf) & _).
      by rewrite Ht in Hf.
Qed.

(** X26: the status "Insufficient database permissions" is reported only
    after both queries succeeded, the first row of the permission query has
    a falsy [can_connect] and the pool closed; the statements sent are then
    [SELECT 1] and the permission check with the configured database bound
    to [dbName], on a pool of at most one connection. *)
Theorem onSync_insufficient_permissions config d :
  customStatusDescription (onSync times_1000 config d).1
    = Some "Insufficient database permissions" →
  (∃ first rest, permission_answer d = inr (first :: rest)
                 ∧ truthy (Blocks.field first "can_connect") = false)
  ∧ (onSync times_1000 config d).2
    = [Construct (syncPoolConfig times_1000 config); Connect;
       Query "SELECT 1" [];
       Query permission_sql [("dbName", Pool.prop config "database")];
       Close]
  ∧ pool_max (syncPoolConfig times_1000 config) = 1%Z.
Proof.
  unfold onSync, close_then, caught, failed, statusDescription.
  destruct (construct_throws d).
  { simpl. by repeat case_match. }
  destruct (connect_rejects d).
  { simpl. by repeat case_match. }
  destruct (select_rejects d).
  { simpl. by repeat case_match. }
  destruct (permission_answer d) as [error|[|first rest]].
  - simpl. by repeat case_match.
  - by simpl.
  - destruct (truthy (Blocks.field first "can_connect")) eqn:Ht; simpl;
      destruct (close_rejects d 0); simpl; try by repeat case_match.
    intros _. split; [by exists first, rest|done].
Qed.

End OnSync.
End SyncFacts.

(** C1, as stated, fails: when [done] arrives while a pull is waiting, the
    pull sequence carries [undefined] after the rows. *)
Lemma streamRows_yields_undefined :
  ∃ g outs,
    StreamRows.run StreamRows.init Scenarios.done_while_waiting = Some (g, outs)
    ∧ StreamRows.callbacks Scenarios.done_while_waiting
      = map StreamRows.OnRow [7] ++ [StreamRows.OnDone]
    ∧ StreamRows.pos g = StreamRows.Completed
    ∧ outs = [StreamRows.Yielded (Some 7); StreamRows.Yielded None;
              StreamRows.Returned]
    ∧ outs ≠ StreamRows.rows_of [7] ++ [StreamRows.Returned].
Proof.
  eexists _, _. split; [reflexivity|]. split; [reflexivity|].
  split; [reflexivity|]. split; [reflexivity|]. discriminate.
Qed.

Lemma streamRows_delivers_rows_witness :
  ∃ g outs,
    StreamRows.run StreamRows.init Scenarios.burst = Some (g, outs)
    ∧ StreamRows.callbacks Scenarios.burst
      = map StreamRows.OnRow [1; 2] ++ [StreamRows.OnDone]
    ∧ StreamRows.remaining g ≤ 4
    ∧ ∃ g' outs' m,
        StreamRows.drain 4 g = (g', outs')
        ∧ StreamRows.pos g' = StreamRows.Completed
        ∧ outs ++ outs'
          = StreamRows.rows_of [1; 2] ++ m ++ [StreamRows.Returned]
        ∧ (m = [] ∨ m = [StreamRows.Yielded None]).
Proof.
  eexists _, _.
  split; [reflexivity|]. split; [reflexivity|].
  split; [vm_compute; lia|].
  apply (StreamRowsFacts.streamRows_delivers_rows Scenarios.burst [1; 2]).
  - reflexivity.
  - reflexivity.
  - vm_compute. lia.
Defined.

Lemma getPool_reuses_stored_pool_witness :
  Pool.globalPool Scenarios.serving_A = Some 0
  ∧ Pool.is_connected Scenarios.serving_A 0 = true
  ∧ Pool.getPool Scenarios.same_text Scenarios.server_text
      Scenarios.serving_A Scenarios.cfgA
    = (Scenarios.serving_A, Pool.Now 0).
Proof.
  split; [reflexivity|]. split; [reflexivity|].
  apply (PoolFacts.getPool_reuses_stored_pool
           Scenarios.same_text Scenarios.server_text
           Scenarios.serving_A Scenarios.cfgA 0);
    vm_compute; reflexivity.
Defined.

Lemma getPool_starts_second_initialization_witness :
  Pool.run Scenarios.same_text Scenarios.server_text Pool.init
    [Pool.Call Scenarios.cfgA]
  = Some (MoreScenarios.connecting_A, [Pool.Later 0])
  ∧ ∃ s' st' calls,
      Pool.getPool Scenarios.same_text Scenarios.server_text
        MoreScenarios.connecting_A Scenarios.cfgA = (s', Pool.Later 1)
      ∧ 0 ≠ 1
      ∧ Pool.inits s' = [Pool.Connecting 0 "db-a"] ++ [st']
      ∧ Pool.unsettled st' = true
      ∧ Pool.inits s' !! 0 = Some (Pool.Connecting 0 "db-a")
      ∧ Pool.poolInitializationPromise s' = Some 1
      ∧ Pool.trace s' = [Pool.Construct 0; Pool.Connect 0] ++ calls
      ∧ calls ≠ []
      ∧ 2 ≤ length (Pool.running s').
Proof.
  split; [vm_compute; reflexivity|].
  apply (PoolFacts.getPool_starts_second_initialization
           Scenarios.same_text Scenarios.server_text
           MoreScenarios.connecting_A Scenarios.cfgA 0
           (Pool.Connecting 0 "db-a")).
  - reflexivity.
  - reflexivity.
  - left. vm_compute. discriminate.
Defined.



(** C2, as stated, fails: a second call made while the first one's
    initialisation is connecting, with another configuration (its hash
    differs from the stored one, which is still unset), starts a second
    initialisation; both run at once and the two callers are tied to
    different promises, hence different pools. *)
Lemma getPool_concurrent_initializations :
  ∃ s,
    Pool.run Scenarios.same_text Scenarios.server_text Pool.init
      [Pool.Call Scenarios.cfgA; Pool.Call Scenarios.cfgB]
    = Some (s, [Pool.Later 0; Pool.Later 1])
    ∧ Pool.running s = [Pool.Connecting 0 "db-a"; Pool.Connecting 1 "db-b"]
    ∧ Pool.trace s = [Pool.Construct 0; Pool.Connect 0;
                      Pool.Construct 1; Pool.Connect 1]
    ∧ Pool.Later 0 ≠ Pool.Later 1.
Proof.
  eexists. split; [vm_compute; reflexivity|].
  split; [reflexivity|]. split; [reflexivity|]. discriminate.
Qed.


Lemma streamQuery_last_batch_hasMore_witness :
  ∃ evs last_rows,
    Blocks.streamQuery MoreScenarios.refuses_blanks None
      "SELECT id FROM t WHERE id > @low" (Some [("low", VNum 0)]) (Some 1%Z)
      (Blocks.stream_of Scenarios.two_rows true) []
    = (inr tt,
       [Blocks.RequestCreated;
        Blocks.QuerySent "SELECT id FROM t WHERE id > @low" [("low", VNum 0)]]
       ++ map Blocks.Emitted (evs ++ [Blocks.Batch 1 last_rows 1 true]))
    ∧ length evs = 1
    ∧ Forall (λ ev, Blocks.hasMore_of ev = Some true) evs.
Proof.
  apply (BlocksFacts.streamQuery_last_batch_hasMore
           MoreScenarios.refuses_blanks
           "SELECT id FROM t WHERE id > @low" (Some [("low", VNum 0)])
           1 2 Scenarios.two_rows true).
  - lia.
  - lia.
  - reflexivity.
  - reflexivity.
Defined.

(** C7, as stated, fails: one successful handling by the table
    introspection block sends four statements, not one. *)
Lemma getTableInfo_sends_four_queries :
  ∃ log,
    Blocks.getTableInfo Scenarios.one_row_database None None "users" []
    = (inr tt, log)
    ∧ length (Blocks.queries log) = 4
    ∧ length (Blocks.queries log) ≠ 1.
Proof.
  eexists. split; [vm_compute; reflexivity|].
  split; [reflexivity|]. vm_compute. discriminate.
Qed.

Lemma queries_per_handling_witness :
  Blocks.driver_calls
    (snd (Blocks.getTableInfo Scenarios.one_row_database None None
            "users" []))
  = [Blocks.RequestCreated;
     Blocks.QuerySent Blocks.tableQuery
       [("p1", VStr "dbo"); ("p2", VStr "users")];
     Blocks.RequestCreated;
     Blocks.QuerySent Blocks.columnsQuery
       [("p1", VStr "dbo"); ("p2", VStr "users")];
     Blocks.RequestCreated;
     Blocks.QuerySent Blocks.constraintsQuery
       [("p1", VStr "dbo"); ("p2", VStr "users")];
     Blocks.RequestCreated;
     Blocks.QuerySent Blocks.indexesQuery
       [("p1", VStr "dbo"); ("p2", VStr "users")]].
Proof.
  apply (proj2 (proj2 (proj2 (proj2
           (BlocksFacts.queries_per_handling Scenarios.one_row_database
              MoreScenarios.accepts_all))))
           None None "users").
  vm_compute. reflexivity.
Defined.

(** C8, as stated, fails: when [getPool] rejects, the bulk insert with no
    rows emits no event; it rethrows the error. *)
Lemma bulkInsert_no_rows_pool_rejected :
  Blocks.bulkInsert Scenarios.one_row_database (Some "ECONNREFUSED")
    "users" ["id"] [] []
  = (inl "ECONNREFUSED", [])
  ∧ Blocks.emitted
      (snd (Blocks.bulkInsert Scenarios.one_row_database
              (Some "ECONNREFUSED") "users" ["id"] [] []))
    ≠ [Blocks.InsertResult 0 "users"].
Proof. split; [reflexivity|]. vm_compute. discriminate. Qed.


(** ** Instances of the further properties *)

Lemma yielded_rows_prefix_witness :
  ∃ g outs,
    StreamRows.run StreamRows.init MoreScenarios.error_after_row
    = Some (g, outs)
    ∧ StreamTrace.yielded_rows outs
      `prefix_of` StreamTrace.received MoreScenarios.error_after_row.
Proof.
  eexists _, _. split; [reflexivity|].
  eapply (StreamTraceFacts.yielded_rows_prefix MoreScenarios.error_after_row).
  reflexivity.
Defined.

Lemma endings_come_from_driver_witness :
  ∃ g outs,
    StreamRows.run StreamRows.init MoreScenarios.error_after_row
    = Some (g, outs)
    ∧ StreamRows.Thrown 9 ∈ outs
    ∧ (StreamRows.Returned ∈ outs
       → StreamRows.OnDone ∈ MoreScenarios.error_after_row)
    ∧ (∀ e, StreamRows.Thrown e ∈ outs
            → StreamRows.OnError e ∈ MoreScenarios.error_after_row)
    ∧ (StreamRows.Yielded None ∈ outs
       → StreamRows.OnDone ∈ MoreScenarios.error_after_row).
Proof.
  eexists _, _. split; [reflexivity|].
  split; [apply list_elem_of_lookup; by exists 1|].
  eapply (StreamTraceFacts.endings_come_from_driver
           MoreScenarios.error_after_row).
  reflexivity.
Defined.

Lemma error_raised_at_next_step_witness :
  ∃ g outs,
    StreamRows.run (R:=nat) (E:=nat) StreamRows.init [StreamRows.Pull]
    = Some (g, outs)
    ∧ StreamTrace.raises_next g = true
    ∧ ∃ g1 g2,
        StreamRows.step g (StreamRows.OnError 9) = Some (g1, None)
        ∧ StreamTrace.next_answer g1 = Some (g2, Some (StreamRows.Thrown 9))
        ∧ StreamRows.pos g2 = StreamRows.Completed.
Proof.
  eexists _, _. split; [reflexivity|]. split; [reflexivity|].
  eapply (StreamTraceFacts.error_raised_at_next_step [StreamRows.Pull]).
  - reflexivity.
  - reflexivity.
Defined.

Lemma hashed_object_determines_pool_config_witness :
  Pool.configForHash Scenarios.cfgA
  = Pool.configForHash MoreScenarios.cfgA_labelled
  ∧ PoolConfig.createPoolConfig MoreScenarios.thousandfold Scenarios.cfgA
    = PoolConfig.createPoolConfig MoreScenarios.thousandfold
        MoreScenarios.cfgA_labelled
  ∧ PoolConfig.syncPoolConfig MoreScenarios.thousandfold Scenarios.cfgA
    = PoolConfig.syncPoolConfig MoreScenarios.thousandfold
        MoreScenarios.cfgA_labelled.
Proof.
  split; [vm_compute; reflexivity|].
  apply (PoolTraceFacts.hashed_object_determines_pool_config
           MoreScenarios.thousandfold).
  vm_compute. reflexivity.
Defined.

Lemma getConfigHash_reads_hashed_properties_witness :
  (∀ k, k ∈ PoolConfig.hashed_properties →
        Pool.prop Scenarios.cfgA k = Pool.prop MoreScenarios.cfgA_labelled k)
  ∧ Pool.getConfigHash Scenarios.same_text Scenarios.server_text
      Scenarios.cfgA
    = Pool.getConfigHash Scenarios.same_text Scenarios.server_text
        MoreScenarios.cfgA_labelled.
Proof.
  assert (∀ k, k ∈ PoolConfig.hashed_properties →
               Pool.prop Scenarios.cfgA k
               = Pool.prop MoreScenarios.cfgA_labelled k) as Hagree.
  { intros k Hk. unfold PoolConfig.hashed_properties in Hk.
    repeat (apply elem_of_cons in Hk as [->|Hk]; [vm_compute; reflexivity|]).
    by apply elem_of_nil in Hk. }
  split; [exact Hagree|].
  apply (PoolTraceFacts.getConfigHash_reads_hashed_properties
           Scenarios.same_text Scenarios.server_text).
  exact Hagree.
Defined.

Lemma pool_returned_at_once_matches_witness :
  ∃ s answers,
    Pool.run Scenarios.same_text Scenarios.server_text Pool.init
      [Pool.Call Scenarios.cfgA; Pool.ConnectSettled 0 None]
    = Some (s, answers)
    ∧ Pool.getPool Scenarios.same_text Scenarios.server_text s
        MoreScenarios.cfgA_labelled = (s, Pool.Now 0)
    ∧ ∃ pl, Pool.pools s !! 0 = Some pl ∧ Pool.connected pl = true
            ∧ Pool.getConfigHash Scenarios.same_text Scenarios.server_text
                (Pool.pool_config pl)
              = Pool.getConfigHash Scenarios.same_text Scenarios.server_text
                  MoreScenarios.cfgA_labelled.
Proof.
  eexists _, _. split; [vm_compute; reflexivity|].
  split; [vm_compute; reflexivity|].
  eapply (PoolTraceFacts.pool_returned_at_once_matches
            Scenarios.same_text Scenarios.server_text
            [Pool.Call Scenarios.cfgA; Pool.ConnectSettled 0 None]
            _ _ _ MoreScenarios.cfgA_labelled).
  - vm_compute. reflexivity.
  - vm_compute. reflexivity.
Defined.

Lemma call_waits_on_running_initialization_witness :
  ∃ s s',
    Pool.run Scenarios.same_text Scenarios.server_text Pool.init
      [Pool.Call Scenarios.cfgA] = Some (s, [Pool.Later 0])
    ∧ Pool.getPool Scenarios.same_text Scenarios.server_text s
        MoreScenarios.cfgA_labelled = (s', Pool.Later 1)
    ∧ ∃ st, Pool.inits s' !! 1 = Some st ∧ Pool.unsettled st = true.
Proof.
  eexists _, _. split; [vm_compute; reflexivity|].
  split; [vm_compute; reflexivity|].
  eapply (PoolTraceFacts.call_waits_on_running_initialization
            Scenarios.same_text Scenarios.server_text
            [Pool.Call Scenarios.cfgA] _ _ _ MoreScenarios.cfgA_labelled).
  - vm_compute. reflexivity.
  - vm_compute. reflexivity.
Defined.

Lemma failed_initialization_is_retried_witness :
  Pool.currentConfigHash Scenarios.serving_A
  ≠ Some (Pool.getConfigHash Scenarios.same_text Scenarios.server_text
            Scenarios.cfgB)
  ∧ ∃ s',
      Pool.run Scenarios.same_text Scenarios.server_text Scenarios.serving_A
        (PoolTrace.failing_call Scenarios.serving_A Scenarios.cfgB "refused")
      = Some (s', [Pool.Later 1])
      ∧ Pool.globalPool s' = None
      ∧ Pool.currentConfigHash s' = Some "db-a"
      ∧ Pool.poolInitializationPromise s' = None
      ∧ Pool.inits s' !! 1 = Some (Pool.Failed "refused")
      ∧ snd (Pool.getPool Scenarios.same_text Scenarios.server_text s'
               Scenarios.cfgB) = Pool.Later 2
      ∧ length (Pool.pools
                  (fst (Pool.getPool Scenarios.same_text
                          Scenarios.server_text s' Scenarios.cfgB))) = 3.
Proof.
  assert (Pool.currentConfigHash Scenarios.serving_A
          ≠ Some (Pool.getConfigHash Scenarios.same_text
                    Scenarios.server_text Scenarios.cfgB)) as Hdiff
    by (vm_compute; discriminate).
  split; [exact Hdiff|].
  exact (PoolTraceFacts.failed_initialization_is_retried
           Scenarios.same_text Scenarios.server_text
           Scenarios.serving_A Scenarios.cfgB "refused" Hdiff).
Defined.

Lemma getTableInfo_table_not_found_witness :
  Blocks.getTableInfo MoreScenarios.empty_database None (Some "") "users" []
  = (inl "Table dbo.users not found",
     [Blocks.RequestCreated;
      Blocks.QuerySent Blocks.tableQuery
        [("p1", VStr "dbo"); ("p2", VStr "users")]]).
Proof.
  apply (BlocksMoreFacts.getTableInfo_table_not_found
           MoreScenarios.empty_database (Some "") "users"
           {| Blocks.recordset := []; Blocks.rowsAffected := [] |});
    reflexivity.
Defined.

Lemma getTableInfo_event_witness :
  ∃ ev,
    Blocks.emitted
      (snd (Blocks.getTableInfo Scenarios.one_row_database None None
              "users" [])) = [ev]
    ∧ ∀ col, Blocks.col_nullable (Blocks.column_of col) = true
             ↔ col !! "is_nullable" = Some (VStr "YES").
Proof.
  eexists.
  eapply (BlocksMoreFacts.getTableInfo_event
            Scenarios.one_row_database None "users"); reflexivity.
Defined.

Lemma bulkInsert_binds_each_cell_once_witness :
  ∃ sql params,
    Blocks.QuerySent sql params
      ∈ snd (Blocks.bulkInsert Scenarios.one_row_database None "users"
               ["id"; "n"] [[VNum 1; VBigInt 2]; [VNum 3; VNull]] [])
    ∧ NoDup params.*1 ∧ length params = 4.
Proof.
  eexists _, _.
  split; [apply list_elem_of_lookup; exists 1; reflexivity|].
  eapply (BlocksMoreFacts.bulkInsert_binds_each_cell_once
            Scenarios.one_row_database "users" ["id"; "n"]
            [[VNum 1; VBigInt 2]; [VNum 3; VNull]]).
  apply list_elem_of_lookup. exists 1. reflexivity.
Defined.

Lemma bulkInsert_rowCount_not_zero_witness :
  Blocks.Emitted (Blocks.InsertResult 1 "users")
    ∈ snd (Blocks.bulkInsert Scenarios.one_row_database None "users"
             ["id"] [[VNum 1]; [VNum 2]] [])
  ∧ (1 ≠ 0)%Z ∧ "users" = "users".
Proof.
  split; [apply list_elem_of_lookup; exists 2; reflexivity|].
  apply (BlocksMoreFacts.bulkInsert_rowCount_not_zero
           Scenarios.one_row_database "users" ["id"] [[VNum 1]; [VNum 2]]).
  - discriminate.
  - apply list_elem_of_lookup. exists 2. reflexivity.
Defined.

Lemma streamQuery_emits_every_row_witness :
  concat (map Blocks.event_rows
            (Blocks.emitted
               (snd (Blocks.streamQuery MoreScenarios.refuses_blanks None
                       "SELECT id FROM t" None (Some 2%Z)
                       (Blocks.stream_of MoreScenarios.three_rows true) []))))
  = map Blocks.serializeRow MoreScenarios.three_rows.
Proof.
  apply (BlocksMoreFacts.streamQuery_emits_every_row
           MoreScenarios.refuses_blanks
           "SELECT id FROM t" None (Some 2%Z) 2 MoreScenarios.three_rows true).
  - lia.
  - reflexivity.
  - reflexivity.
Defined.



Lemma streamQuery_batch_size_at_most_one_witness :
  Blocks.emitted
    (snd (Blocks.streamQuery MoreScenarios.refuses_blanks None "SELECT id FROM t" None (Some (-3)%Z)
            (Blocks.stream_of MoreScenarios.three_rows true) []))
  = imap (λ i r, Blocks.Batch i [Blocks.serializeRow r] 1 true)
      MoreScenarios.three_rows.
Proof.
  apply (BlocksMoreFacts.streamQuery_batch_size_at_most_one
           MoreScenarios.refuses_blanks
           "SELECT id FROM t" None (-3)%Z MoreScenarios.three_rows true).
  - lia.
  - lia.
  - reflexivity.
Defined.

Lemma onSync_insufficient_permissions_witness :
  Sync.customStatusDescription
    (Sync.onSync MoreScenarios.thousandfold Scenarios.cfgA
       MoreScenarios.no_permission).1
  = Some "Insufficient database permissions"
  ∧ (∃ first rest,
        Sync.permission_answer MoreScenarios.no_permission
        = inr (first :: rest)
        ∧ PoolConfig.truthy (Blocks.field first "can_connect") = false)
  ∧ (Sync.onSync MoreScenarios.thousandfold Scenarios.cfgA
       MoreScenarios.no_permission).2
    = [Sync.Construct
         (PoolConfig.syncPoolConfig MoreScenarios.thousandfold Scenarios.cfgA);
       Sync.Connect; Sync.Query "SELECT 1" [];
       Sync.Query Sync.permission_sql
         [("dbName", Pool.prop Scenarios.cfgA "database")];
       Sync.Close]
  ∧ PoolConfig.pool_max
      (PoolConfig.syncPoolConfig MoreScenarios.thousandfold Scenarios.cfgA)
    = 1%Z.
Proof.
  split; [reflexivity|].
  apply (SyncFacts.onSync_insufficient_permissions
           MoreScenarios.thousandfold Scenarios.cfgA
           MoreScenarios.no_permission).
  reflexivity.
Defined.
